(** * Camera pose and intrinsics helpers of [nsr/camera_utils.py]

    A shallow embedding over the real numbers of the camera helpers:
    the three pose samplers, [create_cam2world_matrix],
    [FOV_to_intrinsics], [generate_input_camera] and [uni_mesh_path].

    Tensors of shape (B,3) are lists of [vec3], tensors of shape
    (B,4,4) are lists of [mat4]; element-wise tensor operations are
    maps over those lists.  Arithmetic is exact real arithmetic: the
    rounding of the float tensors is not modelled.  The draws of
    [torch.randn] and [torch.rand] are an explicit argument, a function
    from the row index to the value drawn for that row. *)

From Stdlib Require Import Reals Lra Lia List.
Import ListNotations.
Open Scope R_scope.

(** ** Small vectors and matrices *)

Record vec3 : Type := mk3 { vx : R; vy : R; vz : R }.
Record vec4 : Type := mk4 { c0 : R; c1 : R; c2 : R; c3 : R }.

(** A 4x4 matrix, by rows. *)
Record mat4 : Type := rows4 { r0 : vec4; r1 : vec4; r2 : vec4; r3 : vec4 }.

(** A 3x3 matrix, by rows. *)
Record mat3 : Type := rows3 { q0 : vec3; q1 : vec3; q2 : vec3 }.

Definition vzero : vec3 := mk3 0 0 0.

(** Unary minus on a tensor of 3-vectors, one row. *)
Definition vopp (a : vec3) : vec3 := mk3 (- vx a) (- vy a) (- vz a).

(** [a - b], one row. *)
Definition vsub (a b : vec3) : vec3 :=
  mk3 (vx a - vx b) (vy a - vy b) (vz a - vz b).

Definition dot (a b : vec3) : R := vx a * vx b + vy a * vy b + vz a * vz b.

(** [torch.cross(a, b, dim=-1)], one row. *)
Definition cross (a b : vec3) : vec3 :=
  mk3 (vy a * vz b - vz a * vy b)
      (vz a * vx b - vx a * vz b)
      (vx a * vy b - vy a * vx b).

(** [torch.norm(v, dim=-1)], one row. *)
Definition norm (a : vec3) : R := sqrt (dot a a).

(** Modelled from the spec: [math_utils.normalize_vecs] of
    [nsr/volumetric_rendering/math_utils.py], "divide a 3-vector by its
    Euclidean norm".  The local [normalize_vecs] of
    [generate_input_camera] is the same function,
    [vectors / torch.norm(vectors, dim=-1, keepdim=True)]. *)
Definition normalize_vecs (a : vec3) : vec3 :=
  mk3 (vx a / norm a) (vy a / norm a) (vz a / norm a).

Definition dot4 (a b : vec4) : R :=
  c0 a * c0 b + c1 a * c1 b + c2 a * c2 b + c3 a * c3 b.

Definition col0 (m : mat4) : vec4 := mk4 (c0 (r0 m)) (c0 (r1 m)) (c0 (r2 m)) (c0 (r3 m)).
Definition col1 (m : mat4) : vec4 := mk4 (c1 (r0 m)) (c1 (r1 m)) (c1 (r2 m)) (c1 (r3 m)).
Definition col2 (m : mat4) : vec4 := mk4 (c2 (r0 m)) (c2 (r1 m)) (c2 (r2 m)) (c2 (r3 m)).
Definition col3 (m : mat4) : vec4 := mk4 (c3 (r0 m)) (c3 (r1 m)) (c3 (r2 m)) (c3 (r3 m)).

Definition row_times (a : vec4) (m : mat4) : vec4 :=
  mk4 (dot4 a (col0 m)) (dot4 a (col1 m)) (dot4 a (col2 m)) (dot4 a (col3 m)).

(** [a @ b] on one pair of 4x4 matrices. *)
Definition matmul (a b : mat4) : mat4 :=
  rows4 (row_times (r0 a) b) (row_times (r1 a) b)
        (row_times (r2 a) b) (row_times (r3 a) b).

(** [m @ v] for a column 4-vector. *)
Definition apply4 (m : mat4) (v : vec4) : vec4 :=
  mk4 (dot4 (r0 m) v) (dot4 (r1 m) v) (dot4 (r2 m) v) (dot4 (r3 m) v).

(** [torch.eye(4)]. *)
Definition eye4 : mat4 :=
  rows4 (mk4 1 0 0 0) (mk4 0 1 0 0) (mk4 0 0 1 0) (mk4 0 0 0 1).

(** [torch.stack((a, b, c), axis=-1)], one row of the batch: the three
    vectors become the columns of a 3x3 matrix. *)
Definition stack_last (a b c : vec3) : mat3 :=
  rows3 (mk3 (vx a) (vx b) (vx c))
        (mk3 (vy a) (vy b) (vy c))
        (mk3 (vz a) (vz b) (vz c)).

(** [m[:3, :3] = b]: the upper-left block is replaced, the rest of [m]
    stays. *)
Definition set_block33 (m : mat4) (b : mat3) : mat4 :=
  rows4 (mk4 (vx (q0 b)) (vy (q0 b)) (vz (q0 b)) (c3 (r0 m)))
        (mk4 (vx (q1 b)) (vy (q1 b)) (vz (q1 b)) (c3 (r1 m)))
        (mk4 (vx (q2 b)) (vy (q2 b)) (vz (q2 b)) (c3 (r2 m)))
        (r3 m).

(** [m[:3, 3] = o]. *)
Definition set_col3 (m : mat4) (o : vec3) : mat4 :=
  rows4 (mk4 (c0 (r0 m)) (c1 (r0 m)) (c2 (r0 m)) (vx o))
        (mk4 (c0 (r1 m)) (c1 (r1 m)) (c2 (r1 m)) (vy o))
        (mk4 (c0 (r2 m)) (c1 (r2 m)) (c2 (r2 m)) (vz o))
        (r3 m).

(** Readers of the blocks of a 4x4 matrix. *)
Definition translation (m : mat4) : vec3 :=
  mk3 (c3 (r0 m)) (c3 (r1 m)) (c3 (r2 m)).
Definition rot_col0 (m : mat4) : vec3 := mk3 (c0 (r0 m)) (c0 (r1 m)) (c0 (r2 m)).
Definition rot_col1 (m : mat4) : vec3 := mk3 (c1 (r0 m)) (c1 (r1 m)) (c1 (r2 m)).
Definition rot_col2 (m : mat4) : vec3 := mk3 (c2 (r0 m)) (c2 (r1 m)) (c2 (r2 m)).

(** [m.reshape(-1)]: the sixteen entries, row after row. *)
Definition flatten4 (m : mat4) : list R :=
  [ c0 (r0 m); c1 (r0 m); c2 (r0 m); c3 (r0 m);
    c0 (r1 m); c1 (r1 m); c2 (r1 m); c3 (r1 m);
    c0 (r2 m); c1 (r2 m); c2 (r2 m); c3 (r2 m);
    c0 (r3 m); c1 (r3 m); c2 (r3 m); c3 (r3 m) ].

(** ** Element-wise operations on batches *)

Fixpoint zip_with {A B C : Type} (f : A -> B -> C)
  (la : list A) (lb : list B) : list C :=
  match la, lb with
  | a :: la', b :: lb' => f a b :: zip_with f la' lb'
  | _, _ => []
  end.

Fixpoint zip_with3 {A B C D : Type} (f : A -> B -> C -> D)
  (la : list A) (lb : list B) (lc : list C) : list D :=
  match la, lb, lc with
  | a :: la', b :: lb', c :: lc' => f a b c :: zip_with3 f la' lb' lc'
  | _, _, _ => []
  end.

(** Broadcasting of the right-hand side of an assignment into [n] rows:
    a batch of [n] rows is taken as it is, a batch of one row is
    repeated, any other batch is a shape error. *)
Definition broadcast_rows {A : Type} (n : nat) (l : list A) : option (list A) :=
  if Nat.eqb (length l) n then Some l
  else match l with
       | [a] => Some (repeat a n)
       | _ => None
       end.

(** ** [create_cam2world_matrix] *)

(** The fixed world-up vector [torch.tensor([0, 1, 0])]. *)
Definition world_up : vec3 := mk3 0 1 0.

Definition create_cam2world_matrix
  (forward_vector origin : list vec3) : option (list mat4) :=
  let forward_vector := map normalize_vecs forward_vector in
  let up_vector := map (fun _ => world_up) forward_vector in
  let right_vector :=
    map vopp (map normalize_vecs (zip_with cross up_vector forward_vector)) in
  let up_vector :=
    map normalize_vecs (zip_with cross forward_vector right_vector) in
  let rotation_matrix :=
    map (set_block33 eye4)
        (zip_with3 stack_last right_vector up_vector forward_vector) in
  match broadcast_rows (length forward_vector) origin with
  | None => None
  | Some origin =>
      let translation_matrix := map (set_col3 eye4) origin in
      Some (zip_with matmul translation_matrix rotation_matrix)
  end.

(** ** The pose samplers *)

(** [torch.clamp(x, lo, hi)]: [min(max(x, lo), hi)]. *)
Definition clamp (x lo hi : R) : R := Rmin (Rmax x lo) hi.

(** The [batch_size] values of one call of [torch.randn((batch_size, 1))]
    or [torch.rand((batch_size, 1))], read from the draw function. *)
Definition draws (rnd : nat -> R) (batch_size : nat) : list R :=
  map rnd (seq 0 batch_size).

(** [torch.zeros((batch_size, 3))]. *)
Definition zeros3 (batch_size : nat) : list vec3 := repeat vzero batch_size.

(** [t[:, 0:1] = xs], [t[:, 1:2] = ys] and [t[:, 2:3] = zs]. *)
Definition set_x (t : list vec3) (xs : list R) : list vec3 :=
  zip_with (fun o x => mk3 x (vy o) (vz o)) t xs.
Definition set_y (t : list vec3) (ys : list R) : list vec3 :=
  zip_with (fun o y => mk3 (vx o) y (vz o)) t ys.
Definition set_z (t : list vec3) (zs : list R) : list vec3 :=
  zip_with (fun o z => mk3 (vx o) (vy o) z) t zs.

Module GaussianCameraPoseSampler.

Definition sample
  (horizontal_mean vertical_mean horizontal_stddev vertical_stddev radius : R)
  (batch_size : nat) (randn_h randn_v : nat -> R) : option (list mat4) :=
  let h := map (fun z => z * horizontal_stddev + horizontal_mean)
               (draws randn_h batch_size) in
  let v := map (fun z => z * vertical_stddev + vertical_mean)
               (draws randn_v batch_size) in
  let v := map (fun x => clamp x 1e-5 (PI - 1e-5)) v in
  let theta := h in
  let v := map (fun x => x / PI) v in
  let phi := map (fun x => acos (1 - 2 * x)) v in
  let camera_origins := zeros3 batch_size in
  let camera_origins :=
    set_x camera_origins
          (zip_with (fun p t => radius * sin p * cos (PI - t)) phi theta) in
  let camera_origins :=
    set_z camera_origins
          (zip_with (fun p t => radius * sin p * sin (PI - t)) phi theta) in
  let camera_origins :=
    set_y camera_origins (map (fun p => radius * cos p) phi) in
  let forward_vectors := map normalize_vecs (map vopp camera_origins) in
  create_cam2world_matrix forward_vectors camera_origins.

End GaussianCameraPoseSampler.

Module LookAtPoseSampler.

Definition sample
  (horizontal_mean vertical_mean : R) (lookat_position : vec3)
  (horizontal_stddev vertical_stddev radius : R)
  (batch_size : nat) (randn_h randn_v : nat -> R) : option (list mat4) :=
  let h := map (fun z => z * horizontal_stddev + horizontal_mean)
               (draws randn_h batch_size) in
  let v := map (fun z => z * vertical_stddev + vertical_mean)
               (draws randn_v batch_size) in
  let v := map (fun x => clamp x 1e-5 (PI - 1e-5)) v in
  let theta := h in
  let v := map (fun x => x / PI) v in
  let phi := map (fun x => acos (1 - 2 * x)) v in
  let camera_origins := zeros3 batch_size in
  let camera_origins :=
    set_x camera_origins
          (zip_with (fun p t => radius * sin p * cos (PI - t)) phi theta) in
  let camera_origins :=
    set_z camera_origins
          (zip_with (fun p t => radius * sin p * sin (PI - t)) phi theta) in
  let camera_origins :=
    set_y camera_origins (map (fun p => radius * cos p) phi) in
  let forward_vectors :=
    map normalize_vecs (map (vsub lookat_position) camera_origins) in
  create_cam2world_matrix forward_vectors camera_origins.

End LookAtPoseSampler.

Module UniformCameraPoseSampler.

Definition sample
  (horizontal_mean vertical_mean horizontal_stddev vertical_stddev radius : R)
  (batch_size : nat) (rand_h rand_v : nat -> R) : option (list mat4) :=
  let h := map (fun u => (u * 2 - 1) * horizontal_stddev + horizontal_mean)
               (draws rand_h batch_size) in
  let v := map (fun u => (u * 2 - 1) * vertical_stddev + vertical_mean)
               (draws rand_v batch_size) in
  let v := map (fun x => clamp x 1e-5 (PI - 1e-5)) v in
  let theta := h in
  let v := map (fun x => x / PI) v in
  let phi := map (fun x => acos (1 - 2 * x)) v in
  let camera_origins := zeros3 batch_size in
  let camera_origins :=
    set_x camera_origins
          (zip_with (fun p t => radius * sin p * cos (PI - t)) phi theta) in
  let camera_origins :=
    set_z camera_origins
          (zip_with (fun p t => radius * sin p * sin (PI - t)) phi theta) in
  let camera_origins :=
    set_y camera_origins (map (fun p => radius * cos p) phi) in
  let forward_vectors := map normalize_vecs (map vopp camera_origins) in
  create_cam2world_matrix forward_vectors camera_origins.

End UniformCameraPoseSampler.

(** ** [FOV_to_intrinsics] *)

Definition FOV_to_intrinsics (fov_degrees : R) : mat3 :=
  let focal_length := 1 / (tan (fov_degrees * 3.14159 / 360) * 1.414) in
  rows3 (mk3 focal_length 0 0.5) (mk3 0 focal_length 0.5) (mk3 0 0 1).

(** ** [generate_input_camera] and [uni_mesh_path] *)

(** [np.deg2rad]. *)
Definition deg2rad (d : R) : R := d * (PI / 180).

(** The up vector [torch.tensor([0, 0, -1])] of [generate_input_camera]. *)
Definition input_up : vec3 := mk3 0 0 (-1).

(** [poses] is a sequence of (pitch, yaw) pairs in degrees.  On an empty
    sequence [np.deg2rad] gives an array of one dimension and
    [poses[:, 0]] raises an IndexError: the result is [None]. *)
Definition generate_input_camera (r : R) (poses : list (R * R)) (fov : R)
  : option (list mat4 * vec4) :=
  let poses := map (fun p => (deg2rad (fst p), deg2rad (snd p))) poses in
  match poses with
  | [] => None
  | _ :: _ =>
      let pitch := map fst poses in
      let yaw := map snd poses in
      let z := map (fun p => r * sin p) pitch in
      let x := zip_with (fun p w => r * cos p * cos w) pitch yaw in
      let y := zip_with (fun p w => r * cos p * sin w) pitch yaw in
      let cam_pos := zip_with3 mk3 x y z in
      let forward_vector := map normalize_vecs (map vopp cam_pos) in
      let up_vector := map (fun _ => input_up) forward_vector in
      let left_vector :=
        map normalize_vecs (zip_with cross up_vector forward_vector) in
      let up_vector :=
        map normalize_vecs (zip_with cross forward_vector left_vector) in
      let rotate := zip_with3 stack_last left_vector up_vector forward_vector in
      let rotation_matrix := map (set_block33 eye4) rotate in
      let translation_matrix := map (set_col3 eye4) cam_pos in
      let cam2world := zip_with matmul translation_matrix rotation_matrix in
      let fx := 0.5 / tan (deg2rad (fov / 2)) in
      let fxfycxcy := mk4 fx fx 0.5 0.5 in
      Some (cam2world, fxfycxcy)
  end.

(** The two nested loops of [uni_mesh_path]: the state is the pair of
    lists (azimuths, elevations), each iteration appends to both. *)
Definition mesh_grid (frame_number : nat) : list R * list R :=
  fold_left
    (fun st elevation =>
       fold_left
         (fun st i =>
            let azi := INR i / INR frame_number * 360 in
            (fst st ++ [azi], snd st ++ [elevation]))
         (seq 0 frame_number) st)
    [60; 30; 0; -30; -60] ([], []).

(** The hard-coded intrinsics [K] of [uni_mesh_path]. *)
Definition K : list R := [1.3889; 0; 0.5; 0; 1.3889; 0.5; 0; 0; 0.0039].

Definition uni_mesh_path (frame_number : nat) (radius : R)
  : option (list (list R)) :=
  let azimuths := fst (mesh_grid frame_number) in
  let elevations := snd (mesh_grid frame_number) in
  let all_frame_number := length azimuths in
  match generate_input_camera radius
          (map (fun i => (nth i elevations 0, nth i azimuths 0))
               (seq 0 all_frame_number)) 30 with
  | None => None
  | Some (zero123pp_pose, _) =>
      let mesh_pathes :=
        zip_with (@app R) (map flatten4 zero123pp_pose)
                 (repeat K all_frame_number) in
      Some mesh_pathes
  end.

(** ** Row-wise readings of the batch code *)

(** One row of [create_cam2world_matrix]. *)
Definition cam2world_row (forward_vector origin : vec3) : mat4 :=
  let forward_vector := normalize_vecs forward_vector in
  let right_vector := vopp (normalize_vecs (cross world_up forward_vector)) in
  let up_vector := normalize_vecs (cross forward_vector right_vector) in
  matmul (set_col3 eye4 origin)
         (set_block33 eye4 (stack_last right_vector up_vector forward_vector)).

(** One row of [generate_input_camera], from the angles in radians. *)
Definition input_camera_row (r pitch yaw : R) : mat4 :=
  let cam_pos := mk3 (r * cos pitch * cos yaw) (r * cos pitch * sin yaw)
                     (r * sin pitch) in
  let forward_vector := normalize_vecs (vopp cam_pos) in
  let left_vector := normalize_vecs (cross input_up forward_vector) in
  let up_vector := normalize_vecs (cross forward_vector left_vector) in
  matmul (set_col3 eye4 cam_pos)
         (set_block33 eye4 (stack_last left_vector up_vector forward_vector)).

(** The columns of the upper-left 3x3 block are orthonormal. *)
Definition orthonormal_cols (m : mat4) : Prop :=
  dot (rot_col0 m) (rot_col0 m) = 1 /\
  dot (rot_col1 m) (rot_col1 m) = 1 /\
  dot (rot_col2 m) (rot_col2 m) = 1 /\
  dot (rot_col0 m) (rot_col1 m) = 0 /\
  dot (rot_col0 m) (rot_col2 m) = 0 /\
  dot (rot_col1 m) (rot_col2 m) = 0.

(** ** The specification's wording *)

(** Section 4.2 of the specification, steps 1 to 5. *)
Definition spec_forward (forward : vec3) : vec3 := normalize_vecs forward.
Definition spec_right (forward : vec3) : vec3 :=
  vopp (normalize_vecs (cross (mk3 0 1 0) (spec_forward forward))).
Definition spec_up_corrected (forward : vec3) : vec3 :=
  normalize_vecs (cross (spec_forward forward) (spec_right forward)).
Definition spec_assemble (a b c origin : vec3) : mat4 :=
  rows4 (mk4 (vx a) (vx b) (vx c) (vx origin))
        (mk4 (vy a) (vy b) (vy c) (vy origin))
        (mk4 (vz a) (vz b) (vz c) (vz origin))
        (mk4 0 0 0 1).
Definition spec_cam2world (forward origin : vec3) : mat4 :=
  spec_assemble (spec_right forward) (spec_up_corrected forward)
                (spec_forward forward) origin.

(** Section 4.3 of the specification, steps 2 to 6, on one batch row. *)
Definition spec_polar (v : R) : R :=
  acos (1 - 2 * (clamp v 1e-5 (PI - 1e-5) / PI)).
Definition spec_origin (r theta v : R) : vec3 :=
  let phi := spec_polar v in
  mk3 (r * sin phi * cos (PI - theta))
      (r * cos phi)
      (r * sin phi * sin (PI - theta)).
Definition spec_pose (aim : vec3 -> vec3) (r theta v : R) : mat4 :=
  let origin := spec_origin r theta v in
  spec_cam2world (normalize_vecs (aim origin)) origin.

(** Section 4.5 of the specification, on one (pitch, yaw) pair in
    degrees. *)
Definition spec_input_origin (r pitch_deg yaw_deg : R) : vec3 :=
  let pitch := pitch_deg * PI / 180 in
  let yaw := yaw_deg * PI / 180 in
  mk3 (r * cos pitch * cos yaw) (r * cos pitch * sin yaw) (r * sin pitch).
Definition spec_input_pose (r pitch_deg yaw_deg : R) : mat4 :=
  let origin := spec_input_origin r pitch_deg yaw_deg in
  let forward := normalize_vecs (vopp origin) in
  let left := normalize_vecs (cross (mk3 0 0 (-1)) forward) in
  let up := normalize_vecs (cross forward left) in
  spec_assemble left up forward origin.
Definition spec_fx (fov_degrees : R) : R :=
  0.5 / tan (fov_degrees / 2 * PI / 180).

(** Section 4.4 of the specification. *)
Definition spec_focal_length (fov_degrees : R) : R :=
  1 / (tan (fov_degrees * PI / 360) * sqrt 2).

(** The five elevation rings of [uni_mesh_path]. *)
Definition rings : list R := [60; 30; 0; -30; -60].

(** The (elevation, azimuth) pairs of the camera path, ring after ring. *)
Definition grid_pairs (frame_number : nat) : list (R * R) :=
  flat_map
    (fun elevation =>
       map (fun i => (elevation, INR i / INR frame_number * 360))
           (seq 0 frame_number))
    rings.

(** ** [sample_uniform_cameras_on_sphere] *)

(** [np.random.uniform(low, high, num_samples)] is read from a draw
    function, one value per sample; that the values lie in
    [low, high) is a hypothesis of the properties that need it. *)
Definition sample_uniform_cameras_on_sphere (num_samples : nat)
  (uniform_theta uniform_cos : nat -> R) : list R * list R :=
  let theta := draws uniform_theta num_samples in
  let cos_phi := draws uniform_cos num_samples in
  let phi := map acos cos_phi in
  (theta, phi).

(** ** Auxiliary notions for the properties *)

(** [k * a] for a scalar [k]. *)
Definition vscale (k : R) (a : vec3) : vec3 :=
  mk3 (k * vx a) (k * vy a) (k * vz a).

(** The homogeneous coordinates of a point. *)
Definition point4 (a : vec3) : vec4 := mk4 (vx a) (vy a) (vz a) 1.

(** The camera origin of the samplers without the arccosine: the height
    is linear in the clamped vertical value. *)
Definition origin_closed_form (r theta v : R) : vec3 :=
  let y := 1 - 2 * (clamp v 1e-5 (PI - 1e-5) / PI) in
  mk3 (- (r * sqrt (1 - y * y) * cos theta))
      (r * y)
      (r * sqrt (1 - y * y) * sin theta).

(** ** [create_cam2world_matrix] with the special values of the floats

    Over the reals a division by a zero norm has no value.  The tensors
    of the code hold IEEE floats, where that division gives a NaN or an
    infinity and the special value then spreads, [0 * NaN] being a NaN.
    This second embedding of [create_cam2world_matrix] keeps the exact
    arithmetic on finite values (no rounding, no overflow) and adds the
    three special values with the IEEE rules. *)

Module IEEE.

(** A finite real, an infinity or a NaN.  A finite zero stands for +0:
    the only divisors of the code are norms, which are never -0. *)
Inductive xreal : Type :=
| Fin (r : R)
| PInf
| NInf
| NaN.

Definition xopp (a : xreal) : xreal :=
  match a with
  | Fin r => Fin (- r)
  | PInf => NInf
  | NInf => PInf
  | NaN => NaN
  end.

Definition xadd (a b : xreal) : xreal :=
  match a, b with
  | NaN, _ | _, NaN => NaN
  | PInf, NInf | NInf, PInf => NaN
  | PInf, _ | _, PInf => PInf
  | NInf, _ | _, NInf => NInf
  | Fin r, Fin s => Fin (r + s)
  end.

Definition xsub (a b : xreal) : xreal := xadd a (xopp b).

(** An infinity times or over a finite value: the sign follows the sign
    of the finite value, and infinity times zero is a NaN. *)
Definition inf_times (positive : bool) (r : R) : xreal :=
  if Req_dec_T r 0 then NaN
  else if Rlt_dec 0 r then (if positive then PInf else NInf)
       else (if positive then NInf else PInf).

Definition inf_over (positive : bool) (r : R) : xreal :=
  if Rlt_dec r 0 then (if positive then NInf else PInf)
  else (if positive then PInf else NInf).

Definition xmul (a b : xreal) : xreal :=
  match a, b with
  | NaN, _ | _, NaN => NaN
  | Fin r, Fin s => Fin (r * s)
  | PInf, Fin s => inf_times true s
  | NInf, Fin s => inf_times false s
  | Fin r, PInf => inf_times true r
  | Fin r, NInf => inf_times false r
  | PInf, PInf | NInf, NInf => PInf
  | PInf, NInf | NInf, PInf => NInf
  end.

Definition xdiv (a b : xreal) : xreal :=
  match a, b with
  | NaN, _ | _, NaN => NaN
  | Fin r, Fin s =>
      if Req_dec_T s 0
      then (if Req_dec_T r 0 then NaN
            else if Rlt_dec 0 r then PInf else NInf)
      else Fin (r / s)
  | Fin _, PInf | Fin _, NInf => Fin 0
  | PInf, Fin s => inf_over true s
  | NInf, Fin s => inf_over false s
  | PInf, PInf | PInf, NInf | NInf, PInf | NInf, NInf => NaN
  end.

Definition xsqrt (a : xreal) : xreal :=
  match a with
  | Fin r => if Rlt_dec r 0 then NaN else Fin (sqrt r)
  | PInf => PInf
  | NInf => NaN
  | NaN => NaN
  end.

Record vec3 : Type := mk3 { vx : xreal; vy : xreal; vz : xreal }.
Record vec4 : Type := mk4 { c0 : xreal; c1 : xreal; c2 : xreal; c3 : xreal }.
Record mat4 : Type := rows4 { r0 : vec4; r1 : vec4; r2 : vec4; r3 : vec4 }.
Record mat3 : Type := rows3 { q0 : vec3; q1 : vec3; q2 : vec3 }.

Definition vopp (a : vec3) : vec3 := mk3 (xopp (vx a)) (xopp (vy a)) (xopp (vz a)).

(** [torch.cross(a, b, dim=-1)], one row. *)
Definition cross (a b : vec3) : vec3 :=
  mk3 (xsub (xmul (vy a) (vz b)) (xmul (vz a) (vy b)))
      (xsub (xmul (vz a) (vx b)) (xmul (vx a) (vz b)))
      (xsub (xmul (vx a) (vy b)) (xmul (vy a) (vx b))).

(** [torch.norm(v, dim=-1)], one row. *)
Definition norm (a : vec3) : xreal :=
  xsqrt (xadd (xadd (xmul (vx a) (vx a)) (xmul (vy a) (vy a)))
              (xmul (vz a) (vz a))).

(** Modelled from the spec: [math_utils.normalize_vecs], "divide a
    3-vector by its Euclidean norm", here with the division of the
    floats: a zero vector gives three NaN. *)
Definition normalize_vecs (a : vec3) : vec3 :=
  mk3 (xdiv (vx a) (norm a)) (xdiv (vy a) (norm a)) (xdiv (vz a) (norm a)).

Definition dot4 (a b : vec4) : xreal :=
  xadd (xadd (xadd (xmul (c0 a) (c0 b)) (xmul (c1 a) (c1 b)))
             (xmul (c2 a) (c2 b)))
       (xmul (c3 a) (c3 b)).

Definition col0 (m : mat4) : vec4 := mk4 (c0 (r0 m)) (c0 (r1 m)) (c0 (r2 m)) (c0 (r3 m)).
Definition col1 (m : mat4) : vec4 := mk4 (c1 (r0 m)) (c1 (r1 m)) (c1 (r2 m)) (c1 (r3 m)).
Definition col2 (m : mat4) : vec4 := mk4 (c2 (r0 m)) (c2 (r1 m)) (c2 (r2 m)) (c2 (r3 m)).
Definition col3 (m : mat4) : vec4 := mk4 (c3 (r0 m)) (c3 (r1 m)) (c3 (r2 m)) (c3 (r3 m)).

Definition row_times (a : vec4) (m : mat4) : vec4 :=
  mk4 (dot4 a (col0 m)) (dot4 a (col1 m)) (dot4 a (col2 m)) (dot4 a (col3 m)).

(** [a @ b] on one pair of 4x4 matrices. *)
Definition matmul (a b : mat4) : mat4 :=
  rows4 (row_times (r0 a) b) (row_times (r1 a) b)
        (row_times (r2 a) b) (row_times (r3 a) b).

(** [m @ v] for a column 4-vector. *)
Definition apply4 (m : mat4) (v : vec4) : vec4 :=
  mk4 (dot4 (r0 m) v) (dot4 (r1 m) v) (dot4 (r2 m) v) (dot4 (r3 m) v).

(** [torch.eye(4)]. *)
Definition eye4 : mat4 :=
  rows4 (mk4 (Fin 1) (Fin 0) (Fin 0) (Fin 0))
        (mk4 (Fin 0) (Fin 1) (Fin 0) (Fin 0))
        (mk4 (Fin 0) (Fin 0) (Fin 1) (Fin 0))
        (mk4 (Fin 0) (Fin 0) (Fin 0) (Fin 1)).

(** [torch.stack((a, b, c), axis=-1)], one row of the batch. *)
Definition stack_last (a b c : vec3) : mat3 :=
  rows3 (mk3 (vx a) (vx b) (vx c))
        (mk3 (vy a) (vy b) (vy c))
        (mk3 (vz a) (vz b) (vz c)).

(** [m[:3, :3] = b]. *)
Definition set_block33 (m : mat4) (b : mat3) : mat4 :=
  rows4 (mk4 (vx (q0 b)) (vy (q0 b)) (vz (q0 b)) (c3 (r0 m)))
        (mk4 (vx (q1 b)) (vy (q1 b)) (vz (q1 b)) (c3 (r1 m)))
        (mk4 (vx (q2 b)) (vy (q2 b)) (vz (q2 b)) (c3 (r2 m)))
        (r3 m).

(** [m[:3, 3] = o]. *)
Definition set_col3 (m : mat4) (o : vec3) : mat4 :=
  rows4 (mk4 (c0 (r0 m)) (c1 (r0 m)) (c2 (r0 m)) (vx o))
        (mk4 (c0 (r1 m)) (c1 (r1 m)) (c2 (r1 m)) (vy o))
        (mk4 (c0 (r2 m)) (c1 (r2 m)) (c2 (r2 m)) (vz o))
        (r3 m).

Definition translation (m : mat4) : vec3 :=
  mk3 (c3 (r0 m)) (c3 (r1 m)) (c3 (r2 m)).
Definition rot_col2 (m : mat4) : vec3 := mk3 (c2 (r0 m)) (c2 (r1 m)) (c2 (r2 m)).

(** The fixed world-up vector [torch.tensor([0, 1, 0])]. *)
Definition world_up : vec3 := mk3 (Fin 0) (Fin 1) (Fin 0).

(** The same steps as the embedding over the reals, line by line. *)
Definition create_cam2world_matrix
  (forward_vector origin : list vec3) : option (list mat4) :=
  let forward_vector := map normalize_vecs forward_vector in
  let up_vector := map (fun _ => world_up) forward_vector in
  let right_vector :=
    map vopp (map normalize_vecs (zip_with cross up_vector forward_vector)) in
  let up_vector :=
    map normalize_vecs (zip_with cross forward_vector right_vector) in
  let rotation_matrix :=
    map (set_block33 eye4)
        (zip_with3 stack_last right_vector up_vector forward_vector) in
  match broadcast_rows (length forward_vector) origin with
  | None => None
  | Some origin =>
      let translation_matrix := map (set_col3 eye4) origin in
      Some (zip_with matmul translation_matrix rotation_matrix)
  end.

(** One row of it. *)
Definition cam2world_row (forward_vector origin : vec3) : mat4 :=
  let forward_vector := normalize_vecs forward_vector in
  let right_vector := vopp (normalize_vecs (cross world_up forward_vector)) in
  let up_vector := normalize_vecs (cross forward_vector right_vector) in
  matmul (set_col3 eye4 origin)
         (set_block33 eye4 (stack_last right_vector up_vector forward_vector)).

End IEEE.

(** The finite values of the second embedding. *)
Definition fin3 (a : vec3) : IEEE.vec3 :=
  IEEE.mk3 (IEEE.Fin (vx a)) (IEEE.Fin (vy a)) (IEEE.Fin (vz a)).
Definition fin4 (a : vec4) : IEEE.vec4 :=
  IEEE.mk4 (IEEE.Fin (c0 a)) (IEEE.Fin (c1 a)) (IEEE.Fin (c2 a))
           (IEEE.Fin (c3 a)).
Definition fin_mat4 (m : mat4) : IEEE.mat4 :=
  IEEE.rows4 (fin4 (r0 m)) (fin4 (r1 m)) (fin4 (r2 m)) (fin4 (r3 m)).

(** * Properties *)

(** ** Lists *)

Lemma zip_with_map {A B C D : Type} (f : B -> C -> D) (g : A -> B) (h : A -> C)
  (l : list A) :
  zip_with f (map g l) (map h l) = map (fun a => f (g a) (h a)) l.
Proof.
  induction l as [|a l IH]; simpl; [reflexivity|].
  now rewrite IH.
Qed.

Lemma zip_with3_map {A B C D E : Type} (f : B -> C -> D -> E)
  (g : A -> B) (h : A -> C) (k : A -> D) (l : list A) :
  zip_with3 f (map g l) (map h l) (map k l)
  = map (fun a => f (g a) (h a) (k a)) l.
Proof.
  induction l as [|a l IH]; simpl; [reflexivity|].
  now rewrite IH.
Qed.

Lemma nth_error_zip_with {A B C : Type} (f : A -> B -> C) la lb i a b :
  nth_error la i = Some a -> nth_error lb i = Some b ->
  nth_error (zip_with f la lb) i = Some (f a b).
Proof.
  revert lb i; induction la as [|x la IH]; intros [|y lb] [|i]; simpl;
    intros Ha Hb; try discriminate.
  - now inversion Ha; inversion Hb.
  - now apply IH.
Qed.

Lemma repeat_map_seq {A : Type} (a : A) n s :
  repeat a n = map (fun _ => a) (seq s n).
Proof.
  revert s; induction n as [|n IH]; intros s; simpl; [reflexivity|].
  now rewrite (IH (S s)).
Qed.

Lemma map_const_repeat {A B : Type} (b : B) (l : list A) :
  map (fun _ => b) l = repeat b (length l).
Proof.
  induction l as [|a l IH]; simpl; [reflexivity|now rewrite IH].
Qed.

Lemma nth_error_repeat_lt {A : Type} (a : A) n i :
  (i < n)%nat -> nth_error (repeat a n) i = Some a.
Proof.
  revert i; induction n as [|n IH]; intros [|i] H; simpl; try lia; auto.
  apply IH; lia.
Qed.

Lemma broadcast_rows_same {A : Type} (l : list A) :
  broadcast_rows (length l) l = Some l.
Proof. unfold broadcast_rows. now rewrite Nat.eqb_refl. Qed.

Lemma broadcast_rows_Some {A : Type} n (l l' : list A) :
  broadcast_rows n l = Some l' ->
  length l' = n /\
  forall i, (i < n)%nat ->
    exists a, nth_error l' i = Some a /\ (nth_error l i = Some a \/ l = [a]).
Proof.
  unfold broadcast_rows.
  destruct (Nat.eqb (length l) n) eqn:E.
  - intros H; inversion H; subst l'. apply Nat.eqb_eq in E. split; [exact E|].
    intros i Hi.
    destruct (nth_error l i) as [a|] eqn:Hn.
    + exists a; auto.
    + apply nth_error_None in Hn. lia.
  - destruct l as [|a [|b l]]; try discriminate.
    intros H; inversion H; subst l'. split; [apply repeat_length|].
    intros i Hi. exists a. split; [now apply nth_error_repeat_lt|now right].
Qed.

(** ** The assembled matrix *)

(** The product of the translation matrix and the rotation matrix is the
    matrix with the three vectors as columns, the origin as fourth column
    and bottom row 0 0 0 1. *)
Lemma matmul_translation_rotation (o a b c : vec3) :
  matmul (set_col3 eye4 o) (set_block33 eye4 (stack_last a b c))
  = spec_assemble a b c o.
Proof.
  unfold matmul, row_times, dot4, col0, col1, col2, col3, set_col3,
    set_block33, stack_last, spec_assemble, eye4; simpl.
  f_equal; f_equal; ring.
Qed.

Lemma vec3_eta (a : vec3) : mk3 (vx a) (vy a) (vz a) = a.
Proof. now destruct a. Qed.

Lemma rot_col0_assemble (a b c o : vec3) : rot_col0 (spec_assemble a b c o) = a.
Proof. apply vec3_eta. Qed.

Lemma rot_col1_assemble (a b c o : vec3) : rot_col1 (spec_assemble a b c o) = b.
Proof. apply vec3_eta. Qed.

Lemma rot_col2_assemble (a b c o : vec3) : rot_col2 (spec_assemble a b c o) = c.
Proof. apply vec3_eta. Qed.

Lemma translation_assemble (a b c o : vec3) :
  translation (spec_assemble a b c o) = o.
Proof. apply vec3_eta. Qed.

Lemma cam2world_row_spec (f o : vec3) :
  cam2world_row f o = spec_cam2world f o.
Proof.
  unfold cam2world_row, spec_cam2world. apply matmul_translation_rotation.
Qed.

Lemma input_camera_row_spec (r pitch_deg yaw_deg : R) :
  input_camera_row r (deg2rad pitch_deg) (deg2rad yaw_deg)
  = spec_input_pose r pitch_deg yaw_deg.
Proof.
  unfold input_camera_row, spec_input_pose, spec_input_origin, deg2rad,
    input_up.
  rewrite matmul_translation_rotation.
  replace (pitch_deg * (PI / 180)) with (pitch_deg * PI / 180) by (unfold Rdiv; ring).
  replace (yaw_deg * (PI / 180)) with (yaw_deg * PI / 180) by (unfold Rdiv; ring).
  reflexivity.
Qed.

(** [create_cam2world_matrix], row by row. *)
Lemma create_cam2world_matrix_zip (fs os : list vec3) :
  zip_with matmul (map (set_col3 eye4) os)
    (map (set_block33 eye4)
       (zip_with3 stack_last
          (map vopp (map normalize_vecs
             (zip_with cross (map (fun _ => world_up) (map normalize_vecs fs))
                (map normalize_vecs fs))))
          (map normalize_vecs
             (zip_with cross (map normalize_vecs fs)
                (map vopp (map normalize_vecs
                   (zip_with cross
                      (map (fun _ => world_up) (map normalize_vecs fs))
                      (map normalize_vecs fs))))))
          (map normalize_vecs fs)))
  = zip_with cam2world_row fs os.
Proof.
  revert os; induction fs as [|f fs IH]; intros [|o os]; simpl; try reflexivity.
  now rewrite IH.
Qed.

Lemma create_cam2world_matrix_rows (fs os : list vec3) :
  create_cam2world_matrix fs os =
  match broadcast_rows (length fs) os with
  | None => None
  | Some os' => Some (zip_with cam2world_row fs os')
  end.
Proof.
  unfold create_cam2world_matrix. rewrite length_map.
  destruct (broadcast_rows (length fs) os) as [os'|]; [|reflexivity].
  now rewrite create_cam2world_matrix_zip.
Qed.

Lemma create_cam2world_matrix_map {A : Type} (F O : A -> vec3) (l : list A) :
  create_cam2world_matrix (map F l) (map O l)
  = Some (map (fun a => cam2world_row (F a) (O a)) l).
Proof.
  rewrite create_cam2world_matrix_rows.
  replace (length (map F l)) with (length (map O l))
    by now rewrite !length_map.
  rewrite broadcast_rows_same. now rewrite zip_with_map.
Qed.


(** What one row of the result is, for an accepted batch. *)
Lemma create_cam2world_matrix_nth (fs os : list vec3) (ms : list mat4) i f :
  create_cam2world_matrix fs os = Some ms ->
  nth_error fs i = Some f ->
  exists o, (nth_error os i = Some o \/ os = [o]) /\
            nth_error ms i = Some (cam2world_row f o).
Proof.
  rewrite create_cam2world_matrix_rows.
  destruct (broadcast_rows (length fs) os) as [os'|] eqn:E; [|discriminate].
  intros H Hf; inversion H; subst ms.
  destruct (broadcast_rows_Some _ _ _ E) as [_ Hrows].
  assert (Hi : (i < length fs)%nat)
    by (apply nth_error_Some; rewrite Hf; discriminate).
  destruct (Hrows i Hi) as [o [Ho Hsrc]].
  exists o; split; [exact Hsrc|].
  now apply nth_error_zip_with.
Qed.

(** ** Vector algebra *)

Lemma dot_self_nonneg (a : vec3) : 0 <= dot a a.
Proof. destruct a as [x y z]; unfold dot; simpl. nra. Qed.

Lemma dot_self_pos (a : vec3) : a <> vzero -> 0 < dot a a.
Proof.
  destruct a as [x y z]; unfold dot, vzero; simpl; intros H.
  destruct (Req_dec x 0) as [Hx|Hx]; [|nra].
  destruct (Req_dec y 0) as [Hy|Hy]; [|nra].
  destruct (Req_dec z 0) as [Hz|Hz]; [|nra].
  exfalso; apply H; now subst.
Qed.

Lemma norm_sqr (a : vec3) : norm a * norm a = dot a a.
Proof. unfold norm. apply sqrt_sqrt, dot_self_nonneg. Qed.

Lemma norm_pos (a : vec3) : 0 < dot a a -> 0 < norm a.
Proof. intros H. unfold norm. now apply sqrt_lt_R0. Qed.

Lemma dot_comm (a b : vec3) : dot a b = dot b a.
Proof. unfold dot; ring. Qed.

Lemma dot_normalize_l (a b : vec3) :
  dot (normalize_vecs a) b = dot a b / norm a.
Proof. unfold dot, normalize_vecs, Rdiv; simpl; ring. Qed.

Lemma dot_vopp_l (a b : vec3) : dot (vopp a) b = - dot a b.
Proof. unfold dot, vopp; simpl; ring. Qed.

Lemma dot_vopp_vopp (a : vec3) : dot (vopp a) (vopp a) = dot a a.
Proof. unfold dot, vopp; simpl; ring. Qed.

Lemma normalize_unit (a : vec3) :
  0 < dot a a -> dot (normalize_vecs a) (normalize_vecs a) = 1.
Proof.
  intros H. pose proof (norm_pos a H) as Hn.
  rewrite dot_normalize_l, (dot_comm a), dot_normalize_l, <- norm_sqr.
  field; lra.
Qed.

Lemma dot_cross_l (a b : vec3) : dot (cross a b) a = 0.
Proof. unfold dot, cross; simpl; ring. Qed.

Lemma dot_cross_r (a b : vec3) : dot (cross a b) b = 0.
Proof. unfold dot, cross; simpl; ring. Qed.

(** Lagrange's identity. *)
Lemma dot_cross_cross (a b : vec3) :
  dot (cross a b) (cross a b) = dot a a * dot b b - dot a b * dot a b.
Proof. unfold dot, cross; simpl; ring. Qed.

Lemma cross_normalize_r (u f : vec3) :
  dot (cross u (normalize_vecs f)) (cross u (normalize_vecs f))
  = dot (cross u f) (cross u f) * (/ norm f * / norm f).
Proof. unfold dot, cross, normalize_vecs, Rdiv; simpl; ring. Qed.

(** The construction of the basis from a unit forward vector [n] and an
    up vector [u] not parallel to it: the three vectors are
    orthonormal, whatever the sign given to the first one. *)
Lemma basis_orthonormal (u n : vec3) :
  dot n n = 1 ->
  0 < dot (cross u n) (cross u n) ->
  let side := normalize_vecs (cross u n) in
  (dot (vopp side) (vopp side) = 1 /\
   dot (normalize_vecs (cross n (vopp side)))
       (normalize_vecs (cross n (vopp side))) = 1 /\
   dot (vopp side) (normalize_vecs (cross n (vopp side))) = 0 /\
   dot (vopp side) n = 0 /\
   dot (normalize_vecs (cross n (vopp side))) n = 0) /\
  (dot side side = 1 /\
   dot (normalize_vecs (cross n side)) (normalize_vecs (cross n side)) = 1 /\
   dot side (normalize_vecs (cross n side)) = 0 /\
   dot side n = 0 /\
   dot (normalize_vecs (cross n side)) n = 0).
Proof.
  intros Hn Hc side.
  assert (Hs : dot side side = 1) by (apply normalize_unit; exact Hc).
  assert (Hsn : dot side n = 0).
  { unfold side. rewrite dot_normalize_l, dot_cross_r. unfold Rdiv; ring. }
  assert (Hgen : forall s, dot s s = 1 -> dot s n = 0 ->
            dot (normalize_vecs (cross n s)) (normalize_vecs (cross n s)) = 1 /\
            dot s (normalize_vecs (cross n s)) = 0 /\
            dot (normalize_vecs (cross n s)) n = 0).
  { intros s Hss Hsn'.
    assert (Hw : dot (cross n s) (cross n s) = 1).
    { rewrite dot_cross_cross, Hn, Hss, (dot_comm n s), Hsn'. ring. }
    split; [apply normalize_unit; rewrite Hw; lra|].
    split.
    - rewrite dot_comm, dot_normalize_l, dot_cross_r. unfold Rdiv; ring.
    - rewrite dot_normalize_l, dot_cross_l. unfold Rdiv; ring. }
  split.
  - assert (Hos : dot (vopp side) (vopp side) = 1)
      by (rewrite dot_vopp_vopp; exact Hs).
    assert (Hosn : dot (vopp side) n = 0)
      by (rewrite dot_vopp_l, Hsn; ring).
    destruct (Hgen (vopp side) Hos Hosn) as (H1 & H2 & H3).
    repeat split; assumption.
  - destruct (Hgen side Hs Hsn) as (H1 & H2 & H3).
    repeat split; assumption.
Qed.

(** A forward vector that is not zero and not parallel to the up vector
    stays so once normalized. *)
Lemma cross_normalize_pos (u f : vec3) :
  f <> vzero -> cross u f <> vzero ->
  0 < dot (cross u (normalize_vecs f)) (cross u (normalize_vecs f)).
Proof.
  intros Hf Hc. rewrite cross_normalize_r.
  pose proof (norm_pos f (dot_self_pos f Hf)) as Hn.
  pose proof (dot_self_pos _ Hc) as Hd.
  pose proof (Rinv_0_lt_compat _ Hn) as Hi.
  apply Rmult_lt_0_compat; [exact Hd|]. now apply Rmult_lt_0_compat.
Qed.

Lemma cam2world_row_orthonormal (f o : vec3) :
  f <> vzero -> cross world_up f <> vzero ->
  orthonormal_cols (cam2world_row f o).
Proof.
  intros Hf Hc. rewrite cam2world_row_spec.
  pose proof (normalize_unit f (dot_self_pos f Hf)) as Hn.
  pose proof (cross_normalize_pos world_up f Hf Hc) as Hp.
  destruct (basis_orthonormal world_up (normalize_vecs f) Hn Hp)
    as [(H1 & H2 & H3 & H4 & H5) _].
  unfold orthonormal_cols, spec_cam2world, spec_right, spec_up_corrected,
    spec_forward.
  change (mk3 0 1 0) with world_up.
  repeat split; try assumption.
Qed.

(** ** [create_cam2world_matrix]: the claims *)

(** C1, amended.  For every batch of forward vectors and origins that
    [create_cam2world_matrix] accepts, row [i] of the result has the
    origin supplied for that row as its translation column; when the
    forward vector of the row is not zero, the third rotation column is
    the normalized forward vector; and when it is moreover not parallel
    to the world-up vector (0,1,0), the bottom row is 0 0 0 1 and the
    matrix maps the camera-local direction (0,0,1,0) to the normalized
    forward vector. *)
Theorem create_cam2world_matrix_translation_forward
  (fs os : list vec3) (ms : list mat4) (i : nat) (f : vec3) :
  create_cam2world_matrix fs os = Some ms ->
  nth_error fs i = Some f ->
  exists o m,
    (nth_error os i = Some o \/ os = [o]) /\
    nth_error ms i = Some m /\
    translation m = o /\
    (f <> vzero -> rot_col2 m = normalize_vecs f) /\
    (f <> vzero -> cross world_up f <> vzero ->
     r3 m = mk4 0 0 0 1 /\
     apply4 m (mk4 0 0 1 0)
     = mk4 (vx (normalize_vecs f)) (vy (normalize_vecs f))
           (vz (normalize_vecs f)) 0).
Proof.
  intros H Hf.
  destruct (create_cam2world_matrix_nth fs os ms i f H Hf) as [o [Ho Hm]].
  exists o, (cam2world_row f o).
  split; [exact Ho|]. split; [exact Hm|].
  rewrite cam2world_row_spec. unfold spec_cam2world.
  split; [apply translation_assemble|].
  split; [intros _; apply rot_col2_assemble|].
  intros _ _.
  unfold spec_assemble, spec_forward, apply4, dot4; simpl.
  split; [reflexivity|]. f_equal; ring.
Qed.

Lemma create_cam2world_matrix_translation_forward_witness :
  exists o m,
    (nth_error [mk3 1 2 3] 0 = Some o \/ [mk3 1 2 3] = [o]) /\
    nth_error [cam2world_row (mk3 0 0 1) (mk3 1 2 3)] 0 = Some m /\
    translation m = o /\
    rot_col2 m = normalize_vecs (mk3 0 0 1) /\
    r3 m = mk4 0 0 0 1 /\
    apply4 m (mk4 0 0 1 0)
    = mk4 (vx (normalize_vecs (mk3 0 0 1))) (vy (normalize_vecs (mk3 0 0 1)))
          (vz (normalize_vecs (mk3 0 0 1))) 0.
Proof.
  destruct (create_cam2world_matrix_translation_forward
              [mk3 0 0 1] [mk3 1 2 3]
              [cam2world_row (mk3 0 0 1) (mk3 1 2 3)] 0%nat (mk3 0 0 1)
              eq_refl eq_refl)
    as (o & m & Ho & Hm & Ht & Hc & Hb).
  assert (Hnz : mk3 0 0 1 <> vzero)
    by (intros E; apply (f_equal vz) in E; simpl in E; lra).
  assert (Hnp : cross world_up (mk3 0 0 1) <> vzero)
    by (intros E; apply (f_equal vx) in E; simpl in E; lra).
  exists o, m.
  split; [exact Ho|]. split; [exact Hm|]. split; [exact Ht|].
  split; [exact (Hc Hnz)|]. exact (Hb Hnz Hnp).
Defined.

(** C2.  For a forward vector that is not zero and not parallel to the
    world-up vector (0,1,0), the upper-left 3x3 block of the row that
    [create_cam2world_matrix] builds has orthonormal columns: each column
    has unit length and two distinct columns have dot product zero. *)
Theorem create_cam2world_matrix_orthonormal
  (fs os : list vec3) (ms : list mat4) (i : nat) (f : vec3) (m : mat4) :
  create_cam2world_matrix fs os = Some ms ->
  nth_error fs i = Some f ->
  nth_error ms i = Some m ->
  f <> vzero ->
  cross world_up f <> vzero ->
  orthonormal_cols m.
Proof.
  intros H Hf Hm Hnz Hnp.
  destruct (create_cam2world_matrix_nth fs os ms i f H Hf) as [o [_ Hm']].
  rewrite Hm in Hm'. inversion Hm'; subst m.
  now apply cam2world_row_orthonormal.
Qed.

Lemma vec3_neq_z (a : vec3) : vz a <> 0 -> a <> vzero.
Proof. intros H E; apply H; now rewrite E. Qed.

Lemma vec3_neq_x (a : vec3) : vx a <> 0 -> a <> vzero.
Proof. intros H E; apply H; now rewrite E. Qed.

Lemma create_cam2world_matrix_orthonormal_witness :
  orthonormal_cols (cam2world_row (mk3 0 0 1) (mk3 1 2 3)).
Proof.
  apply (create_cam2world_matrix_orthonormal
           [mk3 0 0 1] [mk3 1 2 3]
           [cam2world_row (mk3 0 0 1) (mk3 1 2 3)] 0%nat (mk3 0 0 1)
           (cam2world_row (mk3 0 0 1) (mk3 1 2 3)));
    try reflexivity.
  - apply vec3_neq_z; simpl; lra.
  - apply vec3_neq_x; simpl; lra.
Defined.

(** C5.  [create_cam2world_matrix] builds each row by the steps of the
    specification: the forward vector is normalized, the world-up vector
    is (0,1,0), right is minus the normalized cross product of up and
    forward, the corrected up is the normalized cross product of forward
    and right, and the rotation block has the columns right, corrected up,
    forward, in that order. *)
Theorem create_cam2world_matrix_steps (fs os : list vec3) :
  create_cam2world_matrix fs os =
  match broadcast_rows (length fs) os with
  | None => None
  | Some os' => Some (zip_with spec_cam2world fs os')
  end
  /\ forall f o,
       rot_col0 (spec_cam2world f o)
       = vopp (normalize_vecs (cross (mk3 0 1 0) (normalize_vecs f))) /\
       rot_col1 (spec_cam2world f o)
       = normalize_vecs (cross (normalize_vecs f) (rot_col0 (spec_cam2world f o))) /\
       rot_col2 (spec_cam2world f o) = normalize_vecs f.
Proof.
  split.
  - rewrite create_cam2world_matrix_rows.
    destruct (broadcast_rows (length fs) os) as [os'|]; [|reflexivity].
    f_equal. revert os'. induction fs as [|f fs IH]; intros [|o os']; simpl;
      try reflexivity.
    now rewrite cam2world_row_spec, IH.
  - intros f o. unfold spec_cam2world.
    rewrite !rot_col0_assemble, rot_col1_assemble, rot_col2_assemble.
    repeat split; reflexivity.
Qed.

(** ** The pose samplers, row by row *)

Ltac fuse_maps :=
  unfold draws, zeros3, set_x, set_y, set_z;
  rewrite ?(repeat_map_seq vzero _ 0%nat);
  repeat (rewrite map_map || rewrite zip_with_map || rewrite zip_with3_map);
  simpl.

Lemma gaussian_sample_rows (hm vm hs vs r : R) (B : nat) (zh zv : nat -> R) :
  GaussianCameraPoseSampler.sample hm vm hs vs r B zh zv
  = Some (map (fun i => spec_pose vopp r (zh i * hs + hm) (zv i * vs + vm))
              (seq 0 B)).
Proof.
  unfold GaussianCameraPoseSampler.sample. fuse_maps.
  rewrite create_cam2world_matrix_map. f_equal. apply map_ext. intros i.
  now rewrite cam2world_row_spec.
Qed.

Lemma lookat_sample_rows (hm vm : R) (lookat : vec3) (hs vs r : R) (B : nat)
  (zh zv : nat -> R) :
  LookAtPoseSampler.sample hm vm lookat hs vs r B zh zv
  = Some (map (fun i => spec_pose (vsub lookat) r
                          (zh i * hs + hm) (zv i * vs + vm))
              (seq 0 B)).
Proof.
  unfold LookAtPoseSampler.sample. fuse_maps.
  rewrite create_cam2world_matrix_map. f_equal. apply map_ext. intros i.
  now rewrite cam2world_row_spec.
Qed.

Lemma uniform_sample_rows (hm vm hs vs r : R) (B : nat) (uh uv : nat -> R) :
  UniformCameraPoseSampler.sample hm vm hs vs r B uh uv
  = Some (map (fun i => spec_pose vopp r ((uh i * 2 - 1) * hs + hm)
                          ((uv i * 2 - 1) * vs + vm))
              (seq 0 B)).
Proof.
  unfold UniformCameraPoseSampler.sample. fuse_maps.
  rewrite create_cam2world_matrix_map. f_equal. apply map_ext. intros i.
  now rewrite cam2world_row_spec.
Qed.

Lemma clamp_bounds (x lo hi : R) : lo <= hi -> lo <= clamp x lo hi <= hi.
Proof.
  intros H. unfold clamp, Rmin, Rmax.
  destruct (Rle_dec x lo); destruct (Rle_dec _ hi); lra.
Qed.

Lemma clamp_range_ok : 1e-5 <= PI - 1e-5.
Proof. pose proof PI2_3_2. lra. Qed.

Lemma spec_origin_norm (r theta v : R) :
  norm (spec_origin r theta v) = Rabs r.
Proof.
  unfold norm, spec_origin, dot; simpl.
  set (s := sin (spec_polar v)). set (c := cos (spec_polar v)).
  set (sa := sin (PI - theta)). set (ca := cos (PI - theta)).
  assert (Hs : s * s + c * c = 1) by (apply (sin2_cos2 (spec_polar v))).
  assert (Ha : sa * sa + ca * ca = 1) by (apply (sin2_cos2 (PI - theta))).
  replace (r * s * ca * (r * s * ca) + r * c * (r * c)
           + r * s * sa * (r * s * sa))
    with (Rsqr r * (s * s * (sa * sa + ca * ca) + c * c))
    by (unfold Rsqr; ring).
  rewrite Ha, Rmult_1_r, Hs, Rmult_1_r.
  apply sqrt_Rsqr_abs.
Qed.

Lemma spec_pose_translation (aim : vec3 -> vec3) (r theta v : R) :
  translation (spec_pose aim r theta v) = spec_origin r theta v.
Proof. unfold spec_pose, spec_cam2world. apply translation_assemble. Qed.

Lemma vsub_vzero (o : vec3) : vsub vzero o = vopp o.
Proof. unfold vsub, vopp, vzero; simpl. f_equal; ring. Qed.

Lemma map_const_seq {A : Type} (a : A) (f : nat -> A) (s n : nat) :
  (forall i, f i = a) -> map f (seq s n) = repeat a n.
Proof.
  intros H. rewrite (repeat_map_seq a n s). apply map_ext. exact H.
Qed.

(** ** The pose samplers: the claims *)


(** C8.  With both standard deviations zero, every row of the batch that
    the Gaussian or the uniform sampler returns is the same matrix, a
    function of the two means and the radius alone whatever the random
    draws, and its camera origin lies at distance |radius| from the
    world origin. *)
Theorem samplers_deterministic_at_zero_stddev
  (hm vm r : R) (B : nat) (zh zv uh uv : nat -> R) :
  GaussianCameraPoseSampler.sample hm vm 0 0 r B zh zv
  = Some (repeat (spec_pose vopp r hm vm) B) /\
  UniformCameraPoseSampler.sample hm vm 0 0 r B uh uv
  = Some (repeat (spec_pose vopp r hm vm) B) /\
  norm (translation (spec_pose vopp r hm vm)) = Rabs r.
Proof.
  split; [|split].
  - rewrite gaussian_sample_rows. f_equal. apply map_const_seq. intros i.
    f_equal; ring.
  - rewrite uniform_sample_rows. f_equal. apply map_const_seq. intros i.
    f_equal; ring.
  - rewrite spec_pose_translation. apply spec_origin_norm.
Qed.

(** C10.  With both standard deviations zero the three samplers agree:
    the Gaussian and the uniform sampler return the same batch for the
    same means, radius and batch size, and the look-at sampler aimed at
    (0,0,0) returns the batch of the Gaussian sampler; the latter holds
    for every standard deviation when both read the same draws. *)
Theorem samplers_coincide
  (hm vm r : R) (B : nat) (zh zv uh uv lh lv : nat -> R) :
  GaussianCameraPoseSampler.sample hm vm 0 0 r B zh zv
  = UniformCameraPoseSampler.sample hm vm 0 0 r B uh uv /\
  LookAtPoseSampler.sample hm vm vzero 0 0 r B lh lv
  = GaussianCameraPoseSampler.sample hm vm 0 0 r B zh zv /\
  (forall hs vs : R,
      LookAtPoseSampler.sample hm vm vzero hs vs r B zh zv
      = GaussianCameraPoseSampler.sample hm vm hs vs r B zh zv).
Proof.
  assert (Haim : forall theta v,
             spec_pose (vsub vzero) r theta v = spec_pose vopp r theta v).
  { intros theta v. unfold spec_pose. now rewrite vsub_vzero. }
  split; [|split].
  - rewrite gaussian_sample_rows, uniform_sample_rows. f_equal.
    rewrite (map_const_seq (spec_pose vopp r hm vm)),
            (map_const_seq (spec_pose vopp r hm vm)); [reflexivity| |];
      intros i; f_equal; ring.
  - rewrite gaussian_sample_rows, lookat_sample_rows. f_equal.
    rewrite (map_const_seq (spec_pose vopp r hm vm)),
            (map_const_seq (spec_pose vopp r hm vm)); [reflexivity| |];
      intros i; rewrite ?Haim; f_equal; ring.
  - intros hs vs. rewrite gaussian_sample_rows, lookat_sample_rows. f_equal.
    apply map_ext. intros i. apply Haim.
Qed.

(** ** [generate_input_camera] and [uni_mesh_path], row by row *)

Lemma generate_input_camera_rows (r : R) (poses : list (R * R)) (fov : R) :
  poses <> [] ->
  generate_input_camera r poses fov
  = Some (map (fun q => input_camera_row r (deg2rad (fst q)) (deg2rad (snd q)))
              poses,
          mk4 (0.5 / tan (deg2rad (fov / 2))) (0.5 / tan (deg2rad (fov / 2)))
              0.5 0.5).
Proof.
  intros Hne. unfold generate_input_camera.
  destruct (map (fun p => (deg2rad (fst p), deg2rad (snd p))) poses)
    as [|q qs] eqn:E.
  - apply map_eq_nil in E. contradiction.
  - rewrite <- E.
    repeat (rewrite map_map || rewrite zip_with_map || rewrite zip_with3_map).
    reflexivity.
Qed.

Lemma generate_input_camera_nil (r fov : R) :
  generate_input_camera r [] fov = None.
Proof. reflexivity. Qed.

Lemma deg2rad_spec (d : R) : deg2rad d = d * PI / 180.
Proof. unfold deg2rad, Rdiv; ring. Qed.

Lemma mesh_grid_inner (n : nat) (e : R) (l : list nat) (st : list R * list R) :
  fold_left
    (fun st i => (fst st ++ [INR i / INR n * 360], snd st ++ [e])) l st
  = (fst st ++ map snd (map (fun i => (e, INR i / INR n * 360)) l),
     snd st ++ map fst (map (fun i => (e, INR i / INR n * 360)) l)).
Proof.
  revert st; induction l as [|i l IH]; intros [az el]; simpl.
  - now rewrite !app_nil_r.
  - rewrite IH; simpl. now rewrite <- !app_assoc.
Qed.

Lemma mesh_grid_outer (n : nat) (es : list R) (st : list R * list R) :
  fold_left
    (fun st elevation =>
       fold_left
         (fun st i => (fst st ++ [INR i / INR n * 360], snd st ++ [elevation]))
         (seq 0 n) st)
    es st
  = (fst st ++ map snd
       (flat_map (fun e => map (fun i => (e, INR i / INR n * 360)) (seq 0 n)) es),
     snd st ++ map fst
       (flat_map (fun e => map (fun i => (e, INR i / INR n * 360)) (seq 0 n)) es)).
Proof.
  revert st; induction es as [|e es IH]; intros [az el]; simpl.
  - now rewrite !app_nil_r.
  - rewrite IH, mesh_grid_inner; simpl.
    now rewrite !map_app, <- !app_assoc.
Qed.

Lemma mesh_grid_pairs (n : nat) :
  mesh_grid n = (map snd (grid_pairs n), map fst (grid_pairs n)).
Proof. unfold mesh_grid. now rewrite mesh_grid_outer. Qed.

Lemma nth_error_seq_lt (s n i : nat) :
  (i < n)%nat -> nth_error (seq s n) i = Some (s + i)%nat.
Proof.
  intros H. rewrite (nth_error_nth' _ 0%nat) by now rewrite length_seq.
  now rewrite seq_nth.
Qed.

Lemma map_nth_pairs (P : list (R * R)) :
  map (fun i => (nth i (map fst P) 0, nth i (map snd P) 0))
      (seq 0 (length (map snd P)))
  = P.
Proof.
  rewrite length_map.
  apply (nth_ext _ _ (0, 0) (0, 0)).
  - now rewrite length_map, length_seq.
  - intros i Hi. rewrite length_map, length_seq in Hi.
    rewrite (nth_error_nth _ _ (0, 0)
               (map_nth_error
                  (fun i => (nth i (map fst P) 0, nth i (map snd P) 0))
                  i _ (nth_error_seq_lt 0 (length P) i Hi))).
    simpl.
    pose proof (map_nth fst P (0, 0) i) as Hf.
    pose proof (map_nth snd P (0, 0) i) as Hs.
    simpl in Hf, Hs. rewrite Hf, Hs.
    now destruct (nth i P (0, 0)).
Qed.


Lemma flat_map_block_length {A B : Type} (f : A -> list B) (n : nat)
  (es : list A) :
  (forall a, length (f a) = n) ->
  length (flat_map f es) = (length es * n)%nat.
Proof.
  intros Hlen. induction es as [|a es IH]; simpl; [reflexivity|].
  now rewrite length_app, Hlen, IH.
Qed.

Lemma grid_pairs_length (n : nat) : length (grid_pairs n) = (5 * n)%nat.
Proof.
  unfold grid_pairs.
  rewrite (flat_map_block_length _ n)
    by (intros a; now rewrite length_map, length_seq).
  reflexivity.
Qed.


Lemma uni_mesh_path_rows_eq (n : nat) (radius : R) :
  (1 <= n)%nat ->
  uni_mesh_path n radius
  = Some (map (fun q => flatten4 (input_camera_row radius (deg2rad (fst q))
                                    (deg2rad (snd q))) ++ K)
              (grid_pairs n)).
Proof.
  intros Hn. unfold uni_mesh_path. rewrite mesh_grid_pairs; simpl fst; simpl snd.
  rewrite map_nth_pairs.
  rewrite generate_input_camera_rows.
  - rewrite !length_map, <- (map_const_repeat K (grid_pairs n)).
    now rewrite map_map, zip_with_map.
  - intros E. pose proof (grid_pairs_length n) as HL. rewrite E in HL.
    simpl in HL. lia.
Qed.

(** ** [generate_input_camera] and [uni_mesh_path]: the claims *)

(** C6.  [generate_input_camera] turns each (pitch, yaw) pair from
    degrees to radians, places the camera at
    x = r cos(pitch) cos(yaw), y = r cos(pitch) sin(yaw),
    z = r sin(pitch), builds the matrix with world-up (0,0,-1) and the
    columns left, up, forward, where left is the normalized cross product
    of up and forward with no negation, and returns the intrinsics
    (fx, fx, 0.5, 0.5) with fx = 0.5 / tan(fov/2 in radians). *)
Theorem generate_input_camera_spec
  (r : R) (p : R * R) (ps : list (R * R)) (fov : R) :
  generate_input_camera r (p :: ps) fov
  = Some (map (fun q => spec_input_pose r (fst q) (snd q)) (p :: ps),
          mk4 (spec_fx fov) (spec_fx fov) 0.5 0.5)
  /\ forall pitch yaw : R,
       translation (spec_input_pose r pitch yaw)
       = mk3 (r * cos (pitch * PI / 180) * cos (yaw * PI / 180))
             (r * cos (pitch * PI / 180) * sin (yaw * PI / 180))
             (r * sin (pitch * PI / 180)) /\
       rot_col2 (spec_input_pose r pitch yaw)
       = normalize_vecs (vopp (translation (spec_input_pose r pitch yaw))) /\
       rot_col0 (spec_input_pose r pitch yaw)
       = normalize_vecs (cross (mk3 0 0 (-1))
                               (rot_col2 (spec_input_pose r pitch yaw))) /\
       rot_col1 (spec_input_pose r pitch yaw)
       = normalize_vecs (cross (rot_col2 (spec_input_pose r pitch yaw))
                               (rot_col0 (spec_input_pose r pitch yaw))).
Proof.
  split.
  - rewrite generate_input_camera_rows by discriminate.
    f_equal. f_equal.
    + apply map_ext. intros q. apply input_camera_row_spec.
    + unfold spec_fx. rewrite deg2rad_spec. reflexivity.
  - intros pitch yaw. unfold spec_input_pose.
    rewrite translation_assemble, rot_col0_assemble, rot_col1_assemble,
      rot_col2_assemble.
    repeat split; reflexivity.
Qed.



(** ** [FOV_to_intrinsics] *)

Lemma PI_lower : 3.14159 < PI.
Proof.
  pose proof (PI_2_3_7_ineq 2) as [H _].
  unfold sum_f_R0, tg_alt, PI_2_3_7_tg, Ratan_seq in H.
  simpl in H. lra.
Qed.

Lemma sqrt2_lower : 1.414 < sqrt 2.
Proof.
  pose proof (sqrt_sqrt 2) as Hs. pose proof (sqrt_pos 2) as Hp.
  assert (H2 : sqrt 2 * sqrt 2 = 2) by (apply Hs; lra).
  nra.
Qed.

Ltac inr_to_izr H :=
  repeat match type of H with
  | context [INR ?n] =>
      let z := eval vm_compute in (Z.of_nat n) in
      replace (INR n) with (IZR z) in H
        by (rewrite INR_IZR_INZ; apply f_equal; vm_compute; reflexivity)
  end.

(** The tangent at the argument [FOV_to_intrinsics] uses for 90 degrees. *)
Lemma tan_fov90_bounds : 0.99999 < tan (90 * 3.14159 / 360) < 1.
Proof.
  pose proof PI_lower as HP.
  replace (90 * 3.14159 / 360) with 0.7853975 by lra.
  split.
  - assert (H1 : 0 <= 0.7853975) by lra.
    assert (H2 : 0.7853975 <= PI) by lra.
    destruct (SIN 0.7853975 H1 H2) as [Hs _].
    assert (H3 : - PI / 2 <= 0.7853975) by lra.
    assert (H4 : 0.7853975 <= PI / 2) by lra.
    destruct (COS 0.7853975 H3 H4) as [_ Hc].
    unfold sin_lb, sin_approx, sin_term, sum_f_R0 in Hs.
    unfold cos_ub, cos_approx, cos_term, sum_f_R0 in Hc.
    cbn [Nat.mul Nat.add] in Hs, Hc.
    inr_to_izr Hs. inr_to_izr Hc.
    assert (Hcp : 0 < cos 0.7853975) by (apply cos_gt_0; lra).
    unfold tan.
    apply (Rmult_lt_reg_r (cos 0.7853975)); [exact Hcp|].
    unfold Rdiv at 1. rewrite Rmult_assoc, Rinv_l by lra. lra.
  - rewrite <- tan_PI4. apply tan_increasing; lra.
Qed.

(** On (0,180) the code's argument of the tangent lies in (0, pi/2) and
    below the exact half angle in radians. *)
Lemma fov_argument_range (fov : R) :
  0 < fov < 180 ->
  0 < fov * 3.14159 / 360 < fov * PI / 360 /\ fov * PI / 360 < PI / 2.
Proof.
  intros [H0 H180]. pose proof PI_lower as HP. pose proof PI_RGT_0 as HP0.
  repeat split; nra.
Qed.

Lemma focal_denominators (fov : R) :
  0 < fov < 180 ->
  0 < tan (fov * 3.14159 / 360) * 1.414
    < tan (fov * PI / 360) * sqrt 2.
Proof.
  intros H. destruct (fov_argument_range fov H) as [[Hx Hxy] Hy].
  pose proof sqrt2_lower as Hs.
  assert (Ht : 0 < tan (fov * 3.14159 / 360)) by (apply tan_gt_0; lra).
  assert (Hlt : tan (fov * 3.14159 / 360) < tan (fov * PI / 360))
    by (apply tan_increasing; lra).
  split; nra.
Qed.

Lemma focal_length_exceeds_spec (fov : R) :
  0 < fov < 180 ->
  spec_focal_length fov < 1 / (tan (fov * 3.14159 / 360) * 1.414).
Proof.
  intros H. destruct (focal_denominators fov H) as [Hp Hlt].
  unfold spec_focal_length, Rdiv. rewrite !Rmult_1_l.
  now apply Rinv_lt_contravar; [apply Rmult_lt_0_compat; lra|].
Qed.

(** C4, as the specification states it, fails at 90 degrees: the focal
    length of [FOV_to_intrinsics 90] is not
    1 / (tan(90 pi / 360) sqrt 2). *)
Lemma FOV_to_intrinsics_90_not_spec :
  0 < 90 < 180 /\
  FOV_to_intrinsics 90
  <> rows3 (mk3 (spec_focal_length 90) 0 0.5)
           (mk3 0 (spec_focal_length 90) 0.5)
           (mk3 0 0 1).
Proof.
  split; [lra|]. intros E.
  assert (H : 0 < 90 < 180) by lra.
  pose proof (focal_length_exceeds_spec 90 H) as Hlt.
  apply (f_equal (fun m => vx (q0 m))) in E. simpl in E.
  rewrite E in Hlt. lra.
Qed.

(** C4, amended.  For every fov_degrees in (0,180), [FOV_to_intrinsics]
    returns the matrix with rows (f, 0, 0.5), (0, f, 0.5), (0, 0, 1), where
    f = 1 / (tan(fov_degrees * 3.14159 / 360) * 1.414): the constants are
    the decimal literals of the code, the denominator is positive, and f
    is strictly larger than 1 / (tan(fov_degrees pi / 360) sqrt 2).  At 90
    degrees f lies between 0.7072 and 0.7073. *)
Theorem FOV_to_intrinsics_formula (fov : R) :
  0 < fov < 180 ->
  FOV_to_intrinsics fov
  = rows3 (mk3 (1 / (tan (fov * 3.14159 / 360) * 1.414)) 0 0.5)
          (mk3 0 (1 / (tan (fov * 3.14159 / 360) * 1.414)) 0.5)
          (mk3 0 0 1) /\
  0 < tan (fov * 3.14159 / 360) * 1.414 /\
  spec_focal_length fov < vx (q0 (FOV_to_intrinsics fov)) /\
  0.7072 < vx (q0 (FOV_to_intrinsics 90)) < 0.7073.
Proof.
  intros H. split; [reflexivity|].
  split; [apply (focal_denominators fov H)|].
  split; [apply (focal_length_exceeds_spec fov H)|].
  simpl. destruct tan_fov90_bounds as [Hlo Hhi].
  set (t := tan (90 * 3.14159 / 360)) in *.
  assert (Hd : 0 < t * 1.414) by nra.
  split.
  - apply (Rmult_lt_reg_r (t * 1.414)); [exact Hd|].
    unfold Rdiv. rewrite Rmult_1_l, Rinv_l by lra. nra.
  - apply (Rmult_lt_reg_r (t * 1.414)); [exact Hd|].
    unfold Rdiv. rewrite Rmult_1_l, Rinv_l by lra. nra.
Qed.

Lemma FOV_to_intrinsics_formula_witness :
  FOV_to_intrinsics 90
  = rows3 (mk3 (1 / (tan (90 * 3.14159 / 360) * 1.414)) 0 0.5)
          (mk3 0 (1 / (tan (90 * 3.14159 / 360) * 1.414)) 0.5)
          (mk3 0 0 1) /\
  0 < tan (90 * 3.14159 / 360) * 1.414 /\
  spec_focal_length 90 < vx (q0 (FOV_to_intrinsics 90)) /\
  0.7072 < vx (q0 (FOV_to_intrinsics 90)) < 0.7073.
Proof. apply (FOV_to_intrinsics_formula 90). lra. Defined.

(** ** Totality in the radius *)

(** No sampler inspects the radius: for every radius, zero and negative
    ones included, each sampler returns a batch of [batch_size] rows.
    What the float tensors hold on a zero-length forward vector is not
    part of this model. *)
Lemma samplers_accept_any_radius
  (hm vm hs vs r : R) (lookat : vec3) (B : nat) (zh zv : nat -> R) :
  (exists ms, GaussianCameraPoseSampler.sample hm vm hs vs r B zh zv = Some ms
              /\ length ms = B) /\
  (exists ms, LookAtPoseSampler.sample hm vm lookat hs vs r B zh zv = Some ms
              /\ length ms = B) /\
  (exists ms, UniformCameraPoseSampler.sample hm vm hs vs r B zh zv = Some ms
              /\ length ms = B).
Proof.
  rewrite gaussian_sample_rows, lookat_sample_rows, uniform_sample_rows.
  repeat split; eexists; (split; [reflexivity|]);
    now rewrite length_map, length_seq.
Qed.

(** * Further properties of the code *)

(** ** More vector algebra *)

Lemma zip_with_same_length {A B C : Type} (f : A -> B -> C) la lb :
  length lb = length la -> length (zip_with f la lb) = length la.
Proof.
  revert lb; induction la as [|a la IH]; intros [|b lb]; simpl;
    intros H; try discriminate; auto.
Qed.

Lemma zip_with_app {A B C : Type} (f : A -> B -> C) la la' lb lb' :
  length la = length lb ->
  zip_with f (la ++ la') (lb ++ lb') = zip_with f la lb ++ zip_with f la' lb'.
Proof.
  revert lb; induction la as [|a la IH]; intros [|b lb]; simpl;
    intros H; try discriminate; [reflexivity|].
  rewrite IH by lia. reflexivity.
Qed.

Lemma dot_pos_neq (a : vec3) : 0 < dot a a -> a <> vzero.
Proof. intros H E. rewrite E in H. unfold dot, vzero in H; simpl in H. lra. Qed.

Lemma normalize_of_unit (a : vec3) : dot a a = 1 -> normalize_vecs a = a.
Proof.
  intros H. unfold normalize_vecs, norm. rewrite H, sqrt_1.
  destruct a as [x y z]; simpl. f_equal; field.
Qed.

Lemma normalize_idem (a : vec3) :
  0 < dot a a -> normalize_vecs (normalize_vecs a) = normalize_vecs a.
Proof. intros H. apply normalize_of_unit, normalize_unit, H. Qed.

Lemma dot_vscale (k : R) (a : vec3) :
  dot (vscale k a) (vscale k a) = k * k * dot a a.
Proof. unfold dot, vscale; simpl; ring. Qed.

Lemma norm_vscale (k : R) (a : vec3) :
  0 < k -> norm (vscale k a) = k * norm a.
Proof.
  intros Hk. unfold norm. rewrite dot_vscale.
  rewrite sqrt_mult by (try apply dot_self_nonneg; nra).
  now rewrite sqrt_square by lra.
Qed.

Lemma normalize_vscale (k : R) (a : vec3) :
  0 < k -> 0 < dot a a -> normalize_vecs (vscale k a) = normalize_vecs a.
Proof.
  intros Hk Ha. pose proof (norm_pos a Ha) as Hn.
  unfold normalize_vecs. rewrite norm_vscale by exact Hk.
  unfold vscale; simpl. f_equal; field; lra.
Qed.

(** The vector triple product, for a unit vector [a] orthogonal to [b]. *)
Lemma cross_cross_unit (a b : vec3) :
  dot a a = 1 -> dot a b = 0 -> cross a (cross b a) = b.
Proof.
  destruct a as [ax ay az], b as [bx b_y bz]; unfold dot, cross; simpl.
  intros H1 H2. f_equal.
  - replace (ay * (bx * ay - b_y * ax) - az * (bz * ax - bx * az))
      with (bx * (ax * ax + ay * ay + az * az)
            - ax * (ax * bx + ay * b_y + az * bz)) by ring.
    rewrite H1, H2; ring.
  - replace (az * (b_y * az - bz * ay) - ax * (bx * ay - b_y * ax))
      with (b_y * (ax * ax + ay * ay + az * az)
            - ay * (ax * bx + ay * b_y + az * bz)) by ring.
    rewrite H1, H2; ring.
  - replace (ax * (bz * ax - bx * az) - ay * (b_y * az - bz * ay))
      with (bz * (ax * ax + ay * ay + az * az)
            - az * (ax * bx + ay * b_y + az * bz)) by ring.
    rewrite H1, H2; ring.
Qed.

(** The second basis vector needs no normalization: the cross product of
    the unit forward vector with a unit vector orthogonal to it is a
    unit vector already. *)
Lemma cross_unit_orthogonal (n s : vec3) :
  dot n n = 1 -> dot s s = 1 -> dot s n = 0 ->
  normalize_vecs (cross n s) = cross n s.
Proof.
  intros Hn Hs Hsn. apply normalize_of_unit.
  rewrite dot_cross_cross, Hn, Hs, (dot_comm n s), Hsn. ring.
Qed.

(** ** [create_cam2world_matrix]: shape, handedness, roll *)

(** The basis that [create_cam2world_matrix] builds from a forward vector
    that is neither zero nor parallel to the world-up vector. *)
Lemma cam2world_basis (f : vec3) :
  f <> vzero -> cross world_up f <> vzero ->
  spec_up_corrected f = cross (spec_forward f) (spec_right f) /\
  cross (spec_right f) (spec_up_corrected f) = spec_forward f /\
  vy (spec_right f) = 0 /\
  vy (spec_up_corrected f) < 0.
Proof.
  intros Hf Hc.
  pose proof (normalize_unit f (dot_self_pos f Hf)) as Hn.
  pose proof (cross_normalize_pos world_up f Hf Hc) as Hp.
  destruct (basis_orthonormal world_up (normalize_vecs f) Hn Hp)
    as [(H1 & _ & _ & H4 & _) _].
  unfold spec_up_corrected, spec_right, spec_forward.
  change (mk3 0 1 0) with world_up.
  set (n := normalize_vecs f) in *.
  set (c := cross world_up n) in *.
  assert (Hup : normalize_vecs (cross n (vopp (normalize_vecs c)))
                = cross n (vopp (normalize_vecs c)))
    by (apply cross_unit_orthogonal; assumption).
  rewrite Hup.
  split; [reflexivity|].
  split; [apply cross_cross_unit; assumption|].
  pose proof (norm_pos c Hp) as HS.
  pose proof (Rinv_0_lt_compat _ HS) as HI.
  split.
  - unfold c, world_up, vopp, normalize_vecs, cross, Rdiv; simpl. ring.
  - replace (vy (cross n (vopp (normalize_vecs c))))
      with (- (dot c c * / norm c))
      by (unfold c, world_up, vopp, normalize_vecs, cross, dot, Rdiv;
          simpl; ring).
    apply Ropp_lt_gt_0_contravar. now apply Rmult_lt_0_compat.
Qed.

(** X1.  [create_cam2world_matrix] rejects a batch exactly when the
    origins are neither as many as the forward vectors nor a single row;
    an accepted batch gives one matrix per forward vector. *)
Theorem create_cam2world_matrix_shape (fs os : list vec3) :
  (create_cam2world_matrix fs os = None <->
   length os <> length fs /\ length os <> 1%nat) /\
  (forall ms, create_cam2world_matrix fs os = Some ms ->
              length ms = length fs).
Proof.
  rewrite create_cam2world_matrix_rows. unfold broadcast_rows.
  destruct (Nat.eqb (length os) (length fs)) eqn:E.
  - apply Nat.eqb_eq in E. split.
    + split; [discriminate|]. intros [H _]. contradiction.
    + intros ms H. inversion H. now apply zip_with_same_length.
  - apply Nat.eqb_neq in E. destruct os as [|o [|o' os]]; simpl in *.
    + split; [|discriminate]. split; [intros _; split; lia|reflexivity].
    + split.
      * split; [discriminate|]. intros [_ H]. contradiction.
      * intros ms H. inversion H. apply zip_with_same_length.
        apply repeat_length.
    + split; [|discriminate]. split; [intros _; split; lia|reflexivity].
Qed.

(** X2.  For a forward vector that is neither zero nor parallel to
    (0,1,0), the rotation block is a proper rotation: the third column is
    the cross product of the first two, and the second is the cross
    product of the third and the first. *)
Theorem create_cam2world_matrix_right_handed
  (fs os : list vec3) (ms : list mat4) (i : nat) (f : vec3) (m : mat4) :
  create_cam2world_matrix fs os = Some ms ->
  nth_error fs i = Some f ->
  nth_error ms i = Some m ->
  f <> vzero ->
  cross world_up f <> vzero ->
  cross (rot_col0 m) (rot_col1 m) = rot_col2 m /\
  cross (rot_col2 m) (rot_col0 m) = rot_col1 m.
Proof.
  intros H Hf Hm Hnz Hnp.
  destruct (create_cam2world_matrix_nth fs os ms i f H Hf) as [o [_ Hm']].
  rewrite Hm in Hm'. inversion Hm'; subst m.
  rewrite cam2world_row_spec. unfold spec_cam2world.
  rewrite rot_col0_assemble, rot_col1_assemble, rot_col2_assemble.
  destruct (cam2world_basis f Hnz Hnp) as (Hup & Hdet & _ & _).
  split; [exact Hdet|now rewrite Hup].
Qed.

Lemma create_cam2world_matrix_right_handed_witness :
  cross (rot_col0 (cam2world_row (mk3 0 0 1) (mk3 1 2 3)))
        (rot_col1 (cam2world_row (mk3 0 0 1) (mk3 1 2 3)))
  = rot_col2 (cam2world_row (mk3 0 0 1) (mk3 1 2 3)) /\
  cross (rot_col2 (cam2world_row (mk3 0 0 1) (mk3 1 2 3)))
        (rot_col0 (cam2world_row (mk3 0 0 1) (mk3 1 2 3)))
  = rot_col1 (cam2world_row (mk3 0 0 1) (mk3 1 2 3)).
Proof.
  apply (create_cam2world_matrix_right_handed
           [mk3 0 0 1] [mk3 1 2 3]
           [cam2world_row (mk3 0 0 1) (mk3 1 2 3)] 0%nat (mk3 0 0 1)
           (cam2world_row (mk3 0 0 1) (mk3 1 2 3)));
    try reflexivity.
  - apply vec3_neq_z; simpl; lra.
  - apply vec3_neq_x; simpl; lra.
Defined.

(** X3.  For such a forward vector the camera has no roll and its second
    axis points downwards: the first rotation column has a zero world-y
    entry and the second rotation column a negative one. *)
Theorem create_cam2world_matrix_no_roll
  (fs os : list vec3) (ms : list mat4) (i : nat) (f : vec3) (m : mat4) :
  create_cam2world_matrix fs os = Some ms ->
  nth_error fs i = Some f ->
  nth_error ms i = Some m ->
  f <> vzero ->
  cross world_up f <> vzero ->
  c0 (r1 m) = 0 /\ c1 (r1 m) < 0.
Proof.
  intros H Hf Hm Hnz Hnp.
  destruct (create_cam2world_matrix_nth fs os ms i f H Hf) as [o [_ Hm']].
  rewrite Hm in Hm'. inversion Hm'; subst m.
  rewrite cam2world_row_spec. unfold spec_cam2world, spec_assemble; simpl.
  destruct (cam2world_basis f Hnz Hnp) as (_ & _ & Hr & Hu).
  split; assumption.
Qed.

Lemma create_cam2world_matrix_no_roll_witness :
  c0 (r1 (cam2world_row (mk3 0 0 1) (mk3 1 2 3))) = 0 /\
  c1 (r1 (cam2world_row (mk3 0 0 1) (mk3 1 2 3))) < 0.
Proof.
  apply (create_cam2world_matrix_no_roll
           [mk3 0 0 1] [mk3 1 2 3]
           [cam2world_row (mk3 0 0 1) (mk3 1 2 3)] 0%nat (mk3 0 0 1)
           (cam2world_row (mk3 0 0 1) (mk3 1 2 3)));
    try reflexivity.
  - apply vec3_neq_z; simpl; lra.
  - apply vec3_neq_x; simpl; lra.
Defined.

Lemma cam2world_row_vscale (k : R) (f o : vec3) :
  0 < k -> f <> vzero -> cam2world_row (vscale k f) o = cam2world_row f o.
Proof.
  intros Hk Hf. unfold cam2world_row.
  now rewrite (normalize_vscale k f Hk (dot_self_pos f Hf)).
Qed.

Lemma broadcast_rows_eq_length {A : Type} (n : nat) (l : list A) :
  length l = n -> broadcast_rows n l = Some l.
Proof. intros H. subst n. apply broadcast_rows_same. Qed.

(** X4.  Only the direction of the forward vectors matters: scaling every
    forward vector of a batch of nonzero vectors by one positive factor
    leaves the result of [create_cam2world_matrix] unchanged. *)
Theorem create_cam2world_matrix_scale_invariant
  (k : R) (fs os : list vec3) :
  0 < k ->
  Forall (fun f => f <> vzero) fs ->
  create_cam2world_matrix (map (vscale k) fs) os
  = create_cam2world_matrix fs os.
Proof.
  intros Hk Hall. rewrite !create_cam2world_matrix_rows, length_map.
  destruct (broadcast_rows (length fs) os) as [os'|]; [|reflexivity].
  f_equal. revert os'. induction Hall as [|f fs Hf Hall IH]; intros [|o os'];
    simpl; try reflexivity.
  now rewrite IH, cam2world_row_vscale.
Qed.

Lemma create_cam2world_matrix_scale_invariant_witness :
  create_cam2world_matrix (map (vscale 2) [mk3 0 0 1]) [mk3 1 2 3]
  = create_cam2world_matrix [mk3 0 0 1] [mk3 1 2 3].
Proof.
  apply (create_cam2world_matrix_scale_invariant 2 [mk3 0 0 1] [mk3 1 2 3]).
  - lra.
  - constructor; [apply vec3_neq_z; simpl; lra|constructor].
Defined.

(** X5.  Rows are independent: on two batches whose origins are as many
    as their forward vectors, the result for the concatenated batch is
    the concatenation of the two results. *)
Theorem create_cam2world_matrix_app (fs1 fs2 os1 os2 : list vec3) :
  length os1 = length fs1 ->
  length os2 = length fs2 ->
  exists ms1 ms2,
    create_cam2world_matrix fs1 os1 = Some ms1 /\
    create_cam2world_matrix fs2 os2 = Some ms2 /\
    create_cam2world_matrix (fs1 ++ fs2) (os1 ++ os2) = Some (ms1 ++ ms2).
Proof.
  intros H1 H2. rewrite !create_cam2world_matrix_rows.
  rewrite (broadcast_rows_eq_length _ os1 H1),
          (broadcast_rows_eq_length _ os2 H2),
          (broadcast_rows_eq_length _ (os1 ++ os2))
    by (rewrite !length_app; lia).
  do 2 eexists. split; [reflexivity|]. split; [reflexivity|].
  now rewrite zip_with_app by lia.
Qed.

Lemma create_cam2world_matrix_app_witness :
  exists ms1 ms2,
    create_cam2world_matrix [mk3 0 0 1] [mk3 1 2 3] = Some ms1 /\
    create_cam2world_matrix [mk3 1 0 0] [mk3 4 5 6] = Some ms2 /\
    create_cam2world_matrix ([mk3 0 0 1] ++ [mk3 1 0 0])
                            ([mk3 1 2 3] ++ [mk3 4 5 6])
    = Some (ms1 ++ ms2).
Proof.
  apply (create_cam2world_matrix_app
           [mk3 0 0 1] [mk3 1 0 0] [mk3 1 2 3] [mk3 4 5 6]); reflexivity.
Defined.

(** ** The pose samplers: where the camera is and where it looks *)

Lemma clamped_cosine_range (v : R) :
  -1 < 1 - 2 * (clamp v 1e-5 (PI - 1e-5) / PI) < 1.
Proof.
  destruct (clamp_bounds v 1e-5 (PI - 1e-5) clamp_range_ok) as [Hlo Hhi].
  set (c := clamp v 1e-5 (PI - 1e-5)) in *.
  pose proof PI_RGT_0 as HP.
  assert (H0 : 0 < c / PI) by (apply Rdiv_lt_0_compat; lra).
  assert (H1 : c / PI < 1).
  { apply (Rmult_lt_reg_r PI); [exact HP|].
    unfold Rdiv. rewrite Rmult_assoc, Rinv_l by lra. lra. }
  lra.
Qed.

Lemma spec_polar_range (v : R) : 0 < spec_polar v < PI.
Proof. unfold spec_polar. apply acos_bound_lt, clamped_cosine_range. Qed.

Lemma sin_spec_polar_pos (v : R) : 0 < sin (spec_polar v).
Proof. destruct (spec_polar_range v). now apply sin_gt_0. Qed.

Lemma cos_PI_minus (x : R) : cos (PI - x) = - cos x.
Proof. rewrite cos_minus, cos_PI, sin_PI. ring. Qed.

Lemma spec_origin_closed_form (r theta v : R) :
  spec_origin r theta v = origin_closed_form r theta v.
Proof.
  unfold spec_origin, origin_closed_form.
  pose proof (clamped_cosine_range v) as Hr.
  assert (Hr' : -1 <= 1 - 2 * (clamp v 1e-5 (PI - 1e-5) / PI) <= 1) by lra.
  unfold spec_polar. rewrite cos_acos, sin_acos by exact Hr'.
  rewrite cos_PI_minus, sin_PI_x. unfold Rsqr. f_equal; ring.
Qed.

Lemma spec_origin_dot (r theta v : R) :
  dot (spec_origin r theta v) (spec_origin r theta v) = r * r.
Proof.
  pose proof (spec_origin_norm r theta v) as H.
  rewrite <- norm_sqr, H. unfold Rabs. destruct (Rcase_abs r); ring.
Qed.

Lemma spec_origin_horizontal (r theta v : R) :
  r <> 0 ->
  0 < dot (cross world_up (vopp (spec_origin r theta v)))
          (cross world_up (vopp (spec_origin r theta v))).
Proof.
  intros Hr. pose proof (sin_spec_polar_pos v) as Hs.
  unfold spec_origin, world_up, cross, vopp, dot; simpl.
  set (s := sin (spec_polar v)) in *.
  assert (Ha : sin (PI - theta) * sin (PI - theta)
               + cos (PI - theta) * cos (PI - theta) = 1)
    by (apply (sin2_cos2 (PI - theta))).
  set (sa := sin (PI - theta)) in *. set (ca := cos (PI - theta)) in *.
  match goal with |- 0 < ?e =>
    replace e with ((r * s) * (r * s) * (sa * sa + ca * ca)) by ring end.
  rewrite Ha, Rmult_1_r.
  assert (Hrs : r * s <> 0) by (apply Rmult_integral_contrapositive; lra).
  nra.
Qed.

(** For a nonzero radius the forward vector of the Gaussian and uniform
    samplers is a valid input of [create_cam2world_matrix]. *)
Lemma sampler_forward_valid (r theta v : R) :
  r <> 0 ->
  normalize_vecs (vopp (spec_origin r theta v)) <> vzero /\
  cross world_up (normalize_vecs (vopp (spec_origin r theta v))) <> vzero.
Proof.
  intros Hr.
  assert (Hd : 0 < dot (vopp (spec_origin r theta v))
                       (vopp (spec_origin r theta v))).
  { rewrite dot_vopp_vopp, spec_origin_dot. nra. }
  split.
  - apply dot_pos_neq. rewrite normalize_unit by exact Hd. lra.
  - apply dot_pos_neq, cross_normalize_pos.
    + now apply dot_pos_neq.
    + apply dot_pos_neq, spec_origin_horizontal, Hr.
Qed.

(** The matrix built for the aim vector [g] maps the camera-local point
    at distance |g| on the +z axis to the point aimed at. *)
Lemma spec_cam2world_aim (g o : vec3) :
  0 < dot g g ->
  apply4 (spec_cam2world (normalize_vecs g) o) (mk4 0 0 (norm g) 1)
  = mk4 (vx o + vx g) (vy o + vy g) (vz o + vz g) 1.
Proof.
  intros Hg. pose proof (norm_pos g Hg) as Hn.
  unfold spec_cam2world, spec_forward. rewrite normalize_idem by exact Hg.
  generalize (spec_right (normalize_vecs g))
             (spec_up_corrected (normalize_vecs g)).
  intros a b.
  unfold apply4, spec_assemble, dot4, normalize_vecs; simpl.
  f_equal; field; lra.
Qed.

Lemma Forall_map_seq {A : Type} (P : A -> Prop) (f : nat -> A) (s n : nat) :
  (forall i, P (f i)) -> Forall P (map f (seq s n)).
Proof.
  intros H. apply Forall_forall. intros x Hx. apply in_map_iff in Hx.
  destruct Hx as [i [Hi _]]. subst x. apply H.
Qed.

Lemma spec_pose_orthonormal (r theta v : R) :
  r <> 0 -> orthonormal_cols (spec_pose vopp r theta v).
Proof.
  intros Hr. unfold spec_pose. rewrite <- cam2world_row_spec.
  destruct (sampler_forward_valid r theta v Hr) as [H1 H2].
  now apply cam2world_row_orthonormal.
Qed.

Lemma spec_pose_looks_at_origin (r theta v : R) :
  r <> 0 ->
  apply4 (spec_pose vopp r theta v) (mk4 0 0 (Rabs r) 1) = mk4 0 0 0 1.
Proof.
  intros Hr. unfold spec_pose.
  set (o := spec_origin r theta v).
  assert (Hd : 0 < dot (vopp o) (vopp o)).
  { unfold o. rewrite dot_vopp_vopp, spec_origin_dot. nra. }
  replace (Rabs r) with (norm (vopp o)).
  - rewrite spec_cam2world_aim by exact Hd.
    unfold vopp; simpl. f_equal; ring.
  - unfold norm. rewrite dot_vopp_vopp. apply spec_origin_norm.
Qed.

Lemma clamp_inside (x lo hi : R) : lo <= x <= hi -> clamp x lo hi = x.
Proof.
  intros [H1 H2]. unfold clamp. rewrite Rmax_left by exact H1.
  now rewrite Rmin_left by exact H2.
Qed.

Lemma origin_closed_form_equator (r theta : R) :
  origin_closed_form r theta (PI / 2)
  = mk3 (- (r * cos theta)) 0 (r * sin theta).
Proof.
  unfold origin_closed_form. pose proof PI_RGT_0 as HP.
  pose proof PI2_3_2 as HP'.
  rewrite clamp_inside by lra.
  replace (1 - 2 * (PI / 2 / PI)) with 0 by (field; lra).
  replace (1 - 0 * 0) with 1 by ring. rewrite sqrt_1.
  f_equal; ring.
Qed.

Lemma nth_error_map_seq {A : Type} (f : nat -> A) (n i : nat) (a : A) :
  nth_error (map f (seq 0 n)) i = Some a -> a = f i /\ (i < n)%nat.
Proof.
  intros H.
  assert (Hi : (i < length (map f (seq 0 n)))%nat)
    by (apply nth_error_Some; rewrite H; discriminate).
  rewrite length_map, length_seq in Hi.
  rewrite (map_nth_error f _ _ (nth_error_seq_lt 0 n i Hi)) in H.
  inversion H. auto.
Qed.

(** X6.  With a nonzero radius the Gaussian and the uniform sampler never
    return a degenerate pose: whatever the means, the standard
    deviations and the draws, the rotation block of every row has
    orthonormal columns, because the clamp keeps the camera off the two
    poles. *)
Theorem samplers_rows_orthonormal
  (hm vm hs vs r : R) (B : nat) (zh zv : nat -> R) :
  r <> 0 ->
  exists gs us,
    GaussianCameraPoseSampler.sample hm vm hs vs r B zh zv = Some gs /\
    Forall orthonormal_cols gs /\
    UniformCameraPoseSampler.sample hm vm hs vs r B zh zv = Some us /\
    Forall orthonormal_cols us.
Proof.
  intros Hr. do 2 eexists.
  split; [apply gaussian_sample_rows|].
  split; [apply Forall_map_seq; intros i; now apply spec_pose_orthonormal|].
  split; [apply uniform_sample_rows|].
  apply Forall_map_seq; intros i; now apply spec_pose_orthonormal.
Qed.

Lemma samplers_rows_orthonormal_witness :
  exists gs us,
    GaussianCameraPoseSampler.sample 0 1 1 1 2 3 (fun _ => 0.5) (fun _ => 0.5)
    = Some gs /\
    Forall orthonormal_cols gs /\
    UniformCameraPoseSampler.sample 0 1 1 1 2 3 (fun _ => 0.5) (fun _ => 0.5)
    = Some us /\
    Forall orthonormal_cols us.
Proof.
  apply (samplers_rows_orthonormal 0 1 1 1 2 3 (fun _ => 0.5) (fun _ => 0.5)).
  lra.
Defined.

(** X7.  With a nonzero radius every pose of the Gaussian and of the
    uniform sampler looks at the world origin: the matrix maps the
    camera-local point at distance |radius| on the +z axis to
    (0,0,0). *)
Theorem samplers_look_at_world_origin
  (hm vm hs vs r : R) (B : nat) (zh zv : nat -> R) :
  r <> 0 ->
  exists gs us,
    GaussianCameraPoseSampler.sample hm vm hs vs r B zh zv = Some gs /\
    Forall (fun m => apply4 m (mk4 0 0 (Rabs r) 1) = mk4 0 0 0 1) gs /\
    UniformCameraPoseSampler.sample hm vm hs vs r B zh zv = Some us /\
    Forall (fun m => apply4 m (mk4 0 0 (Rabs r) 1) = mk4 0 0 0 1) us.
Proof.
  intros Hr. do 2 eexists.
  split; [apply gaussian_sample_rows|].
  split; [apply Forall_map_seq; intros i; now apply spec_pose_looks_at_origin|].
  split; [apply uniform_sample_rows|].
  apply Forall_map_seq; intros i; now apply spec_pose_looks_at_origin.
Qed.

Lemma samplers_look_at_world_origin_witness :
  exists gs us,
    GaussianCameraPoseSampler.sample 0 1 1 1 2 3 (fun _ => 0.5) (fun _ => 0.5)
    = Some gs /\
    Forall (fun m => apply4 m (mk4 0 0 (Rabs 2) 1) = mk4 0 0 0 1) gs /\
    UniformCameraPoseSampler.sample 0 1 1 1 2 3 (fun _ => 0.5) (fun _ => 0.5)
    = Some us /\
    Forall (fun m => apply4 m (mk4 0 0 (Rabs 2) 1) = mk4 0 0 0 1) us.
Proof.
  apply (samplers_look_at_world_origin 0 1 1 1 2 3
           (fun _ => 0.5) (fun _ => 0.5)).
  lra.
Defined.

(** X8.  Every pose of the look-at sampler whose camera is not at the
    look-at position, and whose direction to it is not parallel to the
    world-up vector (0,1,0), looks at that position: the matrix maps the
    camera-local point on the +z axis, at the distance between the
    camera and the target, to the target. *)
Theorem lookat_sampler_aims_at_target
  (hm vm : R) (lookat : vec3) (hs vs r : R) (B : nat) (zh zv : nat -> R)
  (ms : list mat4) (i : nat) (m : mat4) :
  LookAtPoseSampler.sample hm vm lookat hs vs r B zh zv = Some ms ->
  nth_error ms i = Some m ->
  vsub lookat (translation m) <> vzero ->
  cross world_up (vsub lookat (translation m)) <> vzero ->
  apply4 m (mk4 0 0 (norm (vsub lookat (translation m))) 1) = point4 lookat.
Proof.
  intros H Hm Hne _. rewrite lookat_sample_rows in H. inversion H; subst ms.
  apply nth_error_map_seq in Hm. destruct Hm as [Hm _]. subst m.
  rewrite spec_pose_translation in *.
  unfold spec_pose. rewrite spec_cam2world_aim by now apply dot_self_pos.
  unfold point4, vsub; simpl. f_equal; ring.
Qed.

Lemma vec3_neq_y (a : vec3) : vy a <> 0 -> a <> vzero.
Proof. intros H E; apply H; now rewrite E. Qed.

Lemma sin_cos_product_bound (a b : R) : -1 <= sin a * cos b <= 1.
Proof.
  pose proof (SIN_bound a) as [Hs1 Hs2]. pose proof (COS_bound b) as [Hc1 Hc2].
  split; nra.
Qed.

Lemma lookat_sampler_aims_at_target_witness :
  apply4 (spec_pose (vsub (mk3 7 0 0)) 1 (0 * 0 + 0) (0 * 0 + 1))
    (mk4 0 0
       (norm (vsub (mk3 7 0 0)
                (translation
                   (spec_pose (vsub (mk3 7 0 0)) 1 (0 * 0 + 0) (0 * 0 + 1)))))
       1)
  = point4 (mk3 7 0 0).
Proof.
  apply (lookat_sampler_aims_at_target 0 1 (mk3 7 0 0) 0 0 1 1
           (fun _ => 0) (fun _ => 0)
           [spec_pose (vsub (mk3 7 0 0)) 1 (0 * 0 + 0) (0 * 0 + 1)] 0%nat).
  - apply lookat_sample_rows.
  - reflexivity.
  - rewrite spec_pose_translation. apply vec3_neq_x.
    unfold spec_origin, vsub; simpl.
    pose proof (sin_cos_product_bound (spec_polar (0 * 0 + 1))
                  (PI - (0 * 0 + 0))). lra.
  - rewrite spec_pose_translation. apply vec3_neq_z.
    unfold spec_origin, vsub, cross, world_up; simpl.
    pose proof (sin_cos_product_bound (spec_polar (0 * 0 + 1))
                  (PI - (0 * 0 + 0))). lra.
Defined.

(** X9.  The camera origin of every sampler has a closed form without
    the arccosine: its height is radius * (1 - 2 c / pi), linear in the
    clamped vertical value c, and its horizontal part is
    radius * sqrt(1 - (1 - 2 c / pi)^2) * (- cos(theta), sin(theta)). *)
Theorem samplers_origin_closed_form
  (hm vm hs vs r : R) (lookat : vec3) (B : nat) (zh zv : nat -> R) :
  exists gs ls us,
    GaussianCameraPoseSampler.sample hm vm hs vs r B zh zv = Some gs /\
    map translation gs
    = map (fun i => origin_closed_form r (zh i * hs + hm) (zv i * vs + vm))
          (seq 0 B) /\
    LookAtPoseSampler.sample hm vm lookat hs vs r B zh zv = Some ls /\
    map translation ls
    = map (fun i => origin_closed_form r (zh i * hs + hm) (zv i * vs + vm))
          (seq 0 B) /\
    UniformCameraPoseSampler.sample hm vm hs vs r B zh zv = Some us /\
    map translation us
    = map (fun i => origin_closed_form r ((zh i * 2 - 1) * hs + hm)
                      ((zv i * 2 - 1) * vs + vm))
          (seq 0 B).
Proof.
  do 3 eexists.
  split; [apply gaussian_sample_rows|].
  split; [rewrite map_map; apply map_ext; intros i;
          now rewrite spec_pose_translation, spec_origin_closed_form|].
  split; [apply lookat_sample_rows|].
  split; [rewrite map_map; apply map_ext; intros i;
          now rewrite spec_pose_translation, spec_origin_closed_form|].
  split; [apply uniform_sample_rows|].
  rewrite map_map; apply map_ext; intros i.
  now rewrite spec_pose_translation, spec_origin_closed_form.
Qed.

(** X10.  With both standard deviations zero and vertical mean pi/2 the
    Gaussian sampler puts every camera in the horizontal plane at
    (- radius cos(h), 0, radius sin(h)) for horizontal mean h.  The
    example of the docstring, sample(pi/2, pi/2, radius=1), has the
    camera at (0,0,1); horizontal mean 0 puts it at (- radius, 0, 0). *)
Theorem gaussian_sampler_equator
  (hm r : R) (B : nat) (zh zv : nat -> R) :
  (exists ms,
      GaussianCameraPoseSampler.sample hm (PI / 2) 0 0 r B zh zv = Some ms /\
      Forall (fun m => translation m = mk3 (- (r * cos hm)) 0 (r * sin hm)) ms) /\
  (exists m,
      GaussianCameraPoseSampler.sample (PI / 2) (PI / 2) 0 0 1 1 zh zv
      = Some [m] /\ translation m = mk3 0 0 1) /\
  (exists m,
      GaussianCameraPoseSampler.sample 0 (PI / 2) 0 0 r 1 zh zv
      = Some [m] /\ translation m = mk3 (- r) 0 0).
Proof.
  assert (Hrow : forall h rr i,
             translation (spec_pose vopp rr (zh i * 0 + h) (zv i * 0 + PI / 2))
             = mk3 (- (rr * cos h)) 0 (rr * sin h)).
  { intros h rr i. rewrite spec_pose_translation, spec_origin_closed_form.
    replace (zv i * 0 + PI / 2) with (PI / 2) by ring.
    replace (zh i * 0 + h) with h by ring.
    apply origin_closed_form_equator. }
  split; [|split].
  - eexists. split; [apply gaussian_sample_rows|].
    apply Forall_map_seq. intros i. apply Hrow.
  - exists (spec_pose vopp 1 (zh 0%nat * 0 + PI / 2) (zv 0%nat * 0 + PI / 2)).
    split; [rewrite gaussian_sample_rows; reflexivity|].
    rewrite Hrow, cos_PI2, sin_PI2. f_equal; ring.
  - exists (spec_pose vopp r (zh 0%nat * 0 + 0) (zv 0%nat * 0 + PI / 2)).
    split; [rewrite gaussian_sample_rows; reflexivity|].
    rewrite Hrow, cos_0, sin_0. f_equal; ring.
Qed.

(** ** [generate_input_camera]: shape, sphere, rotation *)

(** The camera position of one row of [generate_input_camera]. *)
Lemma input_camera_row_assemble (r pitch yaw : R) :
  input_camera_row r pitch yaw
  = let cam_pos := mk3 (r * cos pitch * cos yaw) (r * cos pitch * sin yaw)
                       (r * sin pitch) in
    let forward := normalize_vecs (vopp cam_pos) in
    let left := normalize_vecs (cross input_up forward) in
    spec_assemble left (normalize_vecs (cross forward left)) forward cam_pos.
Proof. unfold input_camera_row. apply matmul_translation_rotation. Qed.

Lemma input_cam_pos_dot (r pitch yaw : R) :
  dot (mk3 (r * cos pitch * cos yaw) (r * cos pitch * sin yaw) (r * sin pitch))
      (mk3 (r * cos pitch * cos yaw) (r * cos pitch * sin yaw) (r * sin pitch))
  = r * r.
Proof.
  unfold dot; simpl.
  assert (Hp : sin pitch * sin pitch + cos pitch * cos pitch = 1)
    by (apply (sin2_cos2 pitch)).
  assert (Hy : sin yaw * sin yaw + cos yaw * cos yaw = 1)
    by (apply (sin2_cos2 yaw)).
  set (sp := sin pitch) in *. set (cp := cos pitch) in *.
  set (sy := sin yaw) in *. set (cy := cos yaw) in *.
  match goal with |- ?e = _ =>
    replace e with (r * r * (cp * cp * (sy * sy + cy * cy) + sp * sp)) by ring
  end.
  rewrite Hy, Rmult_1_r.
  replace (cp * cp + sp * sp) with (sp * sp + cp * cp) by ring.
  rewrite Hp. ring.
Qed.

Lemma input_camera_row_norm (r pitch yaw : R) :
  norm (translation (input_camera_row r pitch yaw)) = Rabs r.
Proof.
  rewrite input_camera_row_assemble; cbv zeta.
  rewrite translation_assemble. unfold norm.
  rewrite input_cam_pos_dot. fold (Rsqr r). apply sqrt_Rsqr_abs.
Qed.

Lemma assemble_aim (a b g o : vec3) :
  0 < dot g g ->
  apply4 (spec_assemble a b (normalize_vecs g) o) (mk4 0 0 (norm g) 1)
  = mk4 (vx o + vx g) (vy o + vy g) (vz o + vz g) 1.
Proof.
  intros Hg. pose proof (norm_pos g Hg) as Hn.
  unfold apply4, spec_assemble, dot4, normalize_vecs; simpl.
  f_equal; field; lra.
Qed.

Lemma input_camera_row_looks_at_origin (r pitch yaw : R) :
  r <> 0 ->
  apply4 (input_camera_row r pitch yaw) (mk4 0 0 (Rabs r) 1) = mk4 0 0 0 1.
Proof.
  intros Hr. rewrite input_camera_row_assemble; cbv zeta.
  set (o := mk3 (r * cos pitch * cos yaw) (r * cos pitch * sin yaw)
                (r * sin pitch)).
  assert (Hd : dot (vopp o) (vopp o) = r * r)
    by (rewrite dot_vopp_vopp; apply input_cam_pos_dot).
  replace (Rabs r) with (norm (vopp o))
    by (unfold norm; rewrite Hd; fold (Rsqr r); apply sqrt_Rsqr_abs).
  rewrite assemble_aim by (rewrite Hd; nra).
  unfold vopp; simpl. f_equal; ring.
Qed.

(** The basis of one row of [generate_input_camera], for a nonzero
    radius and a pitch off the two poles. *)
Lemma input_camera_row_basis (r pitch yaw : R) :
  r <> 0 -> cos pitch <> 0 ->
  orthonormal_cols (input_camera_row r pitch yaw) /\
  cross (rot_col0 (input_camera_row r pitch yaw))
        (rot_col1 (input_camera_row r pitch yaw))
  = rot_col2 (input_camera_row r pitch yaw) /\
  c0 (r2 (input_camera_row r pitch yaw)) = 0 /\
  c1 (r2 (input_camera_row r pitch yaw)) < 0.
Proof.
  intros Hr Hc. rewrite input_camera_row_assemble; cbv zeta.
  set (o := mk3 (r * cos pitch * cos yaw) (r * cos pitch * sin yaw)
                (r * sin pitch)).
  assert (Hd : dot (vopp o) (vopp o) = r * r)
    by (rewrite dot_vopp_vopp; apply input_cam_pos_dot).
  assert (Hg : 0 < dot (vopp o) (vopp o)) by (rewrite Hd; nra).
  assert (Hx : 0 < dot (cross input_up (vopp o)) (cross input_up (vopp o))).
  { unfold o, input_up, cross, vopp, dot; simpl.
    assert (Hy : sin yaw * sin yaw + cos yaw * cos yaw = 1)
      by (apply (sin2_cos2 yaw)).
    set (sy := sin yaw) in *. set (cy := cos yaw) in *.
    match goal with |- 0 < ?e =>
      replace e with ((r * cos pitch) * (r * cos pitch)
                      * (sy * sy + cy * cy)) by ring end.
    rewrite Hy, Rmult_1_r.
    assert (Hrc : r * cos pitch <> 0)
      by (apply Rmult_integral_contrapositive; auto).
    nra. }
  pose proof (normalize_unit (vopp o) Hg) as Hn.
  pose proof (cross_normalize_pos input_up (vopp o)
                (dot_pos_neq _ Hg) (dot_pos_neq _ Hx)) as Hp.
  destruct (basis_orthonormal input_up (normalize_vecs (vopp o)) Hn Hp)
    as [_ (H1 & H2 & H3 & H4 & H5)].
  set (n := normalize_vecs (vopp o)) in *.
  set (c := cross input_up n) in *.
  assert (Hup : normalize_vecs (cross n (normalize_vecs c))
                = cross n (normalize_vecs c))
    by (apply cross_unit_orthogonal; assumption).
  split; [|split; [|split]].
  - unfold orthonormal_cols.
    rewrite rot_col0_assemble, rot_col1_assemble, rot_col2_assemble.
    repeat split; assumption.
  - rewrite rot_col0_assemble, rot_col1_assemble, rot_col2_assemble, Hup.
    apply cross_cross_unit; assumption.
  - change (vz (normalize_vecs c) = 0).
    unfold c, input_up, normalize_vecs, cross, Rdiv; simpl. ring.
  - change (vz (normalize_vecs (cross n (normalize_vecs c))) < 0).
    rewrite Hup.
    pose proof (norm_pos c Hp) as HS.
    pose proof (Rinv_0_lt_compat _ HS) as HI.
    replace (vz (cross n (normalize_vecs c)))
      with (- (dot c c * / norm c))
      by (unfold c, input_up, normalize_vecs, cross, dot, Rdiv; simpl; ring).
    apply Ropp_lt_gt_0_contravar. now apply Rmult_lt_0_compat.
Qed.

Lemma Forall_map_impl {A B : Type} (P : A -> Prop) (Q : B -> Prop)
  (f : A -> B) (l : list A) :
  (forall a, P a -> Q (f a)) -> Forall P l -> Forall Q (map f l).
Proof.
  intros H HP. induction HP as [|a l Ha _ IH]; simpl; constructor; auto.
Qed.

Lemma Forall_map_all {A B : Type} (Q : B -> Prop) (f : A -> B) (l : list A) :
  (forall a, Q (f a)) -> Forall Q (map f l).
Proof. intros H. induction l; simpl; constructor; auto. Qed.

(** X11.  [generate_input_camera] fails exactly on the empty pose list,
    and otherwise returns one matrix per (pitch, yaw) pair. *)
Theorem generate_input_camera_shape (r : R) (poses : list (R * R)) (fov : R) :
  (generate_input_camera r poses fov = None <-> poses = []) /\
  (forall ms k, generate_input_camera r poses fov = Some (ms, k) ->
                length ms = length poses).
Proof.
  destruct poses as [|p ps].
  - split; [split; reflexivity|]. intros ms k H. discriminate.
  - rewrite generate_input_camera_rows by discriminate. split.
    + split; discriminate.
    + intros ms k H. inversion H; subst. simpl. now rewrite length_map.
Qed.

(** X12.  Every camera of [generate_input_camera] lies on the sphere of
    radius |r| around the world origin, whatever the pitch and yaw. *)
Theorem generate_input_camera_on_sphere
  (r : R) (p : R * R) (ps : list (R * R)) (fov : R) :
  exists ms k,
    generate_input_camera r (p :: ps) fov = Some (ms, k) /\
    Forall (fun m => norm (translation m) = Rabs r) ms.
Proof.
  do 2 eexists. split; [apply generate_input_camera_rows; discriminate|].
  apply Forall_map_all. intros q. apply input_camera_row_norm.
Qed.

(** X13.  With a nonzero radius every camera of [generate_input_camera]
    looks at the world origin: its matrix maps the camera-local point at
    distance |r| on the +z axis to (0,0,0). *)
Theorem generate_input_camera_looks_at_origin
  (r : R) (p : R * R) (ps : list (R * R)) (fov : R) :
  r <> 0 ->
  exists ms k,
    generate_input_camera r (p :: ps) fov = Some (ms, k) /\
    Forall (fun m => apply4 m (mk4 0 0 (Rabs r) 1) = mk4 0 0 0 1) ms.
Proof.
  intros Hr.
  do 2 eexists. split; [apply generate_input_camera_rows; discriminate|].
  apply Forall_map_all. intros q. now apply input_camera_row_looks_at_origin.
Qed.

Lemma generate_input_camera_looks_at_origin_witness :
  exists ms k,
    generate_input_camera 2 [(30, 45)] 30 = Some (ms, k) /\
    Forall (fun m => apply4 m (mk4 0 0 (Rabs 2) 1) = mk4 0 0 0 1) ms.
Proof.
  apply (generate_input_camera_looks_at_origin 2 (30, 45) [] 30). lra.
Defined.

(** X14.  With a nonzero radius and every pitch off the poles
    (cos(pitch) <> 0), the rotation block of every matrix of
    [generate_input_camera] is a proper rotation: its columns are
    orthonormal and the third is the cross product of the first two,
    as for [create_cam2world_matrix]. *)
Theorem generate_input_camera_rotation
  (r : R) (p : R * R) (ps : list (R * R)) (fov : R) :
  r <> 0 ->
  Forall (fun q => cos (deg2rad (fst q)) <> 0) (p :: ps) ->
  exists ms k,
    generate_input_camera r (p :: ps) fov = Some (ms, k) /\
    Forall (fun m => orthonormal_cols m /\
                     cross (rot_col0 m) (rot_col1 m) = rot_col2 m) ms.
Proof.
  intros Hr Hall.
  do 2 eexists. split; [apply generate_input_camera_rows; discriminate|].
  apply (Forall_map_impl _ _ _ _ (fun q Hq =>
           let H := input_camera_row_basis r (deg2rad (fst q))
                      (deg2rad (snd q)) Hr Hq in
           conj (proj1 H) (proj1 (proj2 H)))).
  exact Hall.
Qed.

Lemma cos_deg2rad_0 : cos (deg2rad 0) <> 0.
Proof.
  unfold deg2rad. replace (0 * (PI / 180)) with 0 by ring.
  rewrite cos_0. lra.
Qed.

Lemma generate_input_camera_rotation_witness :
  exists ms k,
    generate_input_camera 2 [(0, 45)] 30 = Some (ms, k) /\
    Forall (fun m => orthonormal_cols m /\
                     cross (rot_col0 m) (rot_col1 m) = rot_col2 m) ms.
Proof.
  apply (generate_input_camera_rotation 2 (0, 45) [] 30).
  - lra.
  - constructor; [exact cos_deg2rad_0|constructor].
Defined.

(** X15.  Under the same conditions the first column of every matrix of
    [generate_input_camera] has a zero world-z entry and the second
    column a negative one: the second camera axis points along the up
    vector (0,0,-1) of this function, whereas the second column of
    [create_cam2world_matrix] points against its up vector (0,1,0). *)
Theorem generate_input_camera_level
  (r : R) (p : R * R) (ps : list (R * R)) (fov : R) :
  r <> 0 ->
  Forall (fun q => cos (deg2rad (fst q)) <> 0) (p :: ps) ->
  exists ms k,
    generate_input_camera r (p :: ps) fov = Some (ms, k) /\
    Forall (fun m => c0 (r2 m) = 0 /\ c1 (r2 m) < 0) ms.
Proof.
  intros Hr Hall.
  do 2 eexists. split; [apply generate_input_camera_rows; discriminate|].
  apply (Forall_map_impl _ _ _ _ (fun q Hq =>
           proj2 (proj2 (input_camera_row_basis r (deg2rad (fst q))
                           (deg2rad (snd q)) Hr Hq)))).
  exact Hall.
Qed.

Lemma generate_input_camera_level_witness :
  exists ms k,
    generate_input_camera 2 [(0, 45)] 30 = Some (ms, k) /\
    Forall (fun m => c0 (r2 m) = 0 /\ c1 (r2 m) < 0) ms.
Proof.
  apply (generate_input_camera_level 2 (0, 45) [] 30).
  - lra.
  - constructor; [exact cos_deg2rad_0|constructor].
Defined.

(** ** [uni_mesh_path]: the empty path and the poses of the grid *)

Lemma cos_deg2rad_pos (e : R) : -90 < e < 90 -> 0 < cos (deg2rad e).
Proof.
  intros [H1 H2]. pose proof PI_RGT_0 as HP. unfold deg2rad.
  apply cos_gt_0; nra.
Qed.

Lemma grid_pairs_elevation (n : nat) (q : R * R) :
  In q (grid_pairs n) -> -90 < fst q < 90.
Proof.
  unfold grid_pairs. intros H. apply in_flat_map in H.
  destruct H as [e [He Hq]]. apply in_map_iff in Hq.
  destruct Hq as [i [Hi _]]. subst q. simpl.
  unfold rings in He. simpl in He.
  destruct He as [He|[He|[He|[He|[He|[]]]]]]; subst e; lra.
Qed.

(** X16.  [uni_mesh_path] fails exactly for frame_number 0, where the
    pose list handed to [generate_input_camera] is empty. *)
Theorem uni_mesh_path_none (n : nat) (radius : R) :
  uni_mesh_path n radius = None <-> n = 0%nat.
Proof.
  split.
  - intros H. destruct n as [|n]; [reflexivity|].
    rewrite uni_mesh_path_rows_eq in H by lia. discriminate.
  - intros H. subst n. reflexivity.
Qed.

(** X17.  For frame_number >= 1 and a nonzero radius, every row of
    [uni_mesh_path] is a flattened pose followed by the fixed intrinsics,
    and that pose has its camera on the sphere of radius |radius|, looks
    at the world origin and has an orthonormal rotation block: none of
    the five elevation rings is at a pole. *)
Theorem uni_mesh_path_poses (n : nat) (radius : R) :
  (1 <= n)%nat ->
  radius <> 0 ->
  exists rows,
    uni_mesh_path n radius = Some rows /\
    Forall (fun row =>
              exists m,
                row = flatten4 m ++ K /\
                norm (translation m) = Rabs radius /\
                apply4 m (mk4 0 0 (Rabs radius) 1) = mk4 0 0 0 1 /\
                orthonormal_cols m) rows.
Proof.
  intros Hn Hr. eexists. split; [apply (uni_mesh_path_rows_eq n radius Hn)|].
  apply Forall_forall. intros row Hin. apply in_map_iff in Hin.
  destruct Hin as [q [Hq Hin]]. subst row.
  eexists. split; [reflexivity|].
  split; [apply input_camera_row_norm|].
  split; [now apply input_camera_row_looks_at_origin|].
  pose proof (cos_deg2rad_pos (fst q) (grid_pairs_elevation n q Hin)) as Hc.
  apply input_camera_row_basis; [exact Hr|lra].
Qed.

Lemma uni_mesh_path_poses_witness :
  exists rows,
    uni_mesh_path 4 1 = Some rows /\
    Forall (fun row =>
              exists m,
                row = flatten4 m ++ K /\
                norm (translation m) = Rabs 1 /\
                apply4 m (mk4 0 0 (Rabs 1) 1) = mk4 0 0 0 1 /\
                orthonormal_cols m) rows.
Proof. apply (uni_mesh_path_poses 4 1); [lia|lra]. Defined.

(** ** [FOV_to_intrinsics] against the field of view and against the
    intrinsics of [generate_input_camera] *)

Lemma fov_code_argument_range (fov : R) :
  0 < fov < 180 -> 0 < fov * 3.14159 / 360 < PI / 2.
Proof.
  intros H. destruct (fov_argument_range fov H) as [[H1 H2] H3]. lra.
Qed.

(** X18.  On (0,180) the focal length of [FOV_to_intrinsics] is strictly
    decreasing in the field of view. *)
Theorem FOV_to_intrinsics_decreasing (a b : R) :
  0 < a -> a < b -> b < 180 ->
  vx (q0 (FOV_to_intrinsics b)) < vx (q0 (FOV_to_intrinsics a)).
Proof.
  intros H0 Hab Hb. simpl.
  assert (Ha' : 0 < a < 180) by lra. assert (Hb' : 0 < b < 180) by lra.
  pose proof (fov_code_argument_range a Ha') as [Ha1 Ha2].
  pose proof (fov_code_argument_range b Hb') as [Hb1 Hb2].
  assert (Hta : 0 < tan (a * 3.14159 / 360)) by (apply tan_gt_0; lra).
  assert (Hlt : tan (a * 3.14159 / 360) < tan (b * 3.14159 / 360))
    by (apply tan_increasing; lra).
  unfold Rdiv at 1 3. rewrite !Rmult_1_l.
  apply Rinv_lt_contravar; nra.
Qed.

Lemma FOV_to_intrinsics_decreasing_witness :
  vx (q0 (FOV_to_intrinsics 90)) < vx (q0 (FOV_to_intrinsics 30)).
Proof. apply (FOV_to_intrinsics_decreasing 30 90); lra. Defined.

(** X19.  The two intrinsics conventions never agree: for a field of
    view in (0,180) the focal length fx that [generate_input_camera]
    returns is positive and strictly smaller than the focal length of
    [FOV_to_intrinsics] for the same field of view. *)
Theorem generate_input_camera_fx_below_FOV
  (r : R) (p : R * R) (ps : list (R * R)) (fov : R) :
  0 < fov < 180 ->
  exists ms k,
    generate_input_camera r (p :: ps) fov = Some (ms, k) /\
    c1 k = c0 k /\
    0 < c0 k < vx (q0 (FOV_to_intrinsics fov)).
Proof.
  intros H. do 2 eexists.
  split; [apply generate_input_camera_rows; discriminate|].
  split; [reflexivity|]. simpl.
  destruct (fov_argument_range fov H) as [[H1 H2] H3].
  replace (deg2rad (fov / 2)) with (fov * PI / 360)
    by (unfold deg2rad; field).
  assert (Ht' : 0 < tan (fov * 3.14159 / 360)) by (apply tan_gt_0; lra).
  assert (Hlt : tan (fov * 3.14159 / 360) < tan (fov * PI / 360))
    by (apply tan_increasing; lra).
  set (t' := tan (fov * 3.14159 / 360)) in *.
  set (t := tan (fov * PI / 360)) in *.
  assert (Ht : 0 < t) by lra.
  split.
  - apply Rdiv_lt_0_compat; lra.
  - apply (Rmult_lt_reg_r (t * (t' * 1.414))); [nra|].
    replace (0.5 / t * (t * (t' * 1.414))) with (0.5 * (t' * 1.414))
      by (field; lra).
    replace (1 / (t' * 1.414) * (t * (t' * 1.414))) with t by (field; lra).
    nra.
Qed.

Lemma generate_input_camera_fx_below_FOV_witness :
  exists ms k,
    generate_input_camera 1 [(0, 0)] 30 = Some (ms, k) /\
    c1 k = c0 k /\
    0 < c0 k < vx (q0 (FOV_to_intrinsics 30)).
Proof. apply (generate_input_camera_fx_below_FOV 1 (0, 0) [] 30). lra. Defined.

(** ** [sample_uniform_cameras_on_sphere] *)

Lemma acos_range_open (x : R) : -1 <= x < 1 -> 0 < acos x <= PI.
Proof.
  intros [H1 H2]. destruct (acos_bound x) as [Hlo Hhi].
  split; [|exact Hhi].
  destruct Hlo as [Hlo|Hlo]; [exact Hlo|].
  exfalso. assert (Hc : cos (acos x) = x) by (apply cos_acos; lra).
  rewrite <- Hlo, cos_0 in Hc. lra.
Qed.

(** X20.  When the azimuth draws lie in [0, 2 pi) and the cosine draws in
    [-1, 1), [sample_uniform_cameras_on_sphere] returns num_samples
    azimuths in [0, 2 pi) and num_samples polar angles in (0, pi], and
    the cosine of each polar angle is the value drawn for it: the
    cosine, not the angle, is what is uniform. *)
Theorem sample_uniform_cameras_on_sphere_ranges
  (n : nat) (ut uc : nat -> R) :
  (forall i, 0 <= ut i < 2 * PI) ->
  (forall i, -1 <= uc i < 1) ->
  length (fst (sample_uniform_cameras_on_sphere n ut uc)) = n /\
  length (snd (sample_uniform_cameras_on_sphere n ut uc)) = n /\
  Forall (fun t => 0 <= t < 2 * PI)
         (fst (sample_uniform_cameras_on_sphere n ut uc)) /\
  Forall (fun p => 0 < p <= PI)
         (snd (sample_uniform_cameras_on_sphere n ut uc)) /\
  map cos (snd (sample_uniform_cameras_on_sphere n ut uc))
  = map uc (seq 0 n).
Proof.
  intros Ht Hc. unfold sample_uniform_cameras_on_sphere, draws; simpl.
  split; [now rewrite length_map, length_seq|].
  split; [now rewrite !length_map, length_seq|].
  split; [apply Forall_map_all; exact Ht|].
  split.
  - rewrite map_map. apply Forall_map_all. intros i.
    apply acos_range_open, Hc.
  - rewrite !map_map. apply map_ext. intros i.
    apply cos_acos. destruct (Hc i). lra.
Qed.

Lemma sample_uniform_cameras_on_sphere_ranges_witness :
  length (fst (sample_uniform_cameras_on_sphere 3 (fun _ => 1) (fun _ => 0)))
  = 3%nat /\
  length (snd (sample_uniform_cameras_on_sphere 3 (fun _ => 1) (fun _ => 0)))
  = 3%nat /\
  Forall (fun t => 0 <= t < 2 * PI)
         (fst (sample_uniform_cameras_on_sphere 3 (fun _ => 1) (fun _ => 0))) /\
  Forall (fun p => 0 < p <= PI)
         (snd (sample_uniform_cameras_on_sphere 3 (fun _ => 1) (fun _ => 0))) /\
  map cos (snd (sample_uniform_cameras_on_sphere 3 (fun _ => 1) (fun _ => 0)))
  = map (fun _ => 0) (seq 0 3).
Proof.
  apply (sample_uniform_cameras_on_sphere_ranges 3 (fun _ => 1) (fun _ => 0)).
  - intros i. pose proof PI2_3_2. lra.
  - intros i. lra.
Defined.

(** ** [create_cam2world_matrix] on degenerate forward vectors *)

Lemma ieee_norm_fin (a : vec3) : IEEE.norm (fin3 a) = IEEE.Fin (norm a).
Proof.
  unfold IEEE.norm, fin3, norm; simpl.
  destruct (Rlt_dec (vx a * vx a + vy a * vy a + vz a * vz a) 0) as [H|H].
  - pose proof (dot_self_nonneg a) as Hd. unfold dot in Hd. lra.
  - reflexivity.
Qed.

(** On a vector of nonzero norm the two embeddings of [normalize_vecs]
    agree. *)
Lemma ieee_normalize_fin (a : vec3) :
  0 < dot a a -> IEEE.normalize_vecs (fin3 a) = fin3 (normalize_vecs a).
Proof.
  intros H. pose proof (norm_pos a H) as Hn.
  unfold IEEE.normalize_vecs. rewrite ieee_norm_fin.
  unfold fin3, normalize_vecs; simpl.
  destruct (Req_dec_T (norm a) 0) as [E|E]; [lra|reflexivity].
Qed.

(** On the zero vector the division is 0/0: three NaN. *)
Lemma ieee_normalize_zero :
  IEEE.normalize_vecs (fin3 vzero)
  = IEEE.mk3 IEEE.NaN IEEE.NaN IEEE.NaN.
Proof.
  unfold IEEE.normalize_vecs. rewrite ieee_norm_fin.
  assert (Hn : norm vzero = 0).
  { unfold norm, dot, vzero; simpl.
    replace (0 * 0 + 0 * 0 + 0 * 0) with 0 by ring. apply sqrt_0. }
  rewrite Hn. unfold fin3, vzero; simpl.
  destruct (Req_dec_T 0 0) as [_|E]; [reflexivity|contradiction].
Qed.

Lemma ieee_cross_fin (a b : vec3) :
  IEEE.cross (fin3 a) (fin3 b) = fin3 (cross a b).
Proof. reflexivity. Qed.

Lemma ieee_vopp_fin (a : vec3) : IEEE.vopp (fin3 a) = fin3 (vopp a).
Proof. reflexivity. Qed.

Lemma ieee_world_up : IEEE.world_up = fin3 world_up.
Proof. reflexivity. Qed.

Lemma ieee_matmul_fin (o a b c : vec3) :
  IEEE.matmul (IEEE.set_col3 IEEE.eye4 (fin3 o))
    (IEEE.set_block33 IEEE.eye4 (IEEE.stack_last (fin3 a) (fin3 b) (fin3 c)))
  = fin_mat4 (matmul (set_col3 eye4 o) (set_block33 eye4 (stack_last a b c))).
Proof. reflexivity. Qed.

(** On a forward vector that is neither zero nor parallel to the
    world-up vector, the embedding with special values returns the
    finite matrix of the embedding over the reals. *)
Lemma ieee_cam2world_row_agrees (f o : vec3) :
  f <> vzero -> cross world_up f <> vzero ->
  IEEE.cam2world_row (fin3 f) (fin3 o) = fin_mat4 (cam2world_row f o).
Proof.
  intros Hf Hc.
  pose proof (dot_self_pos f Hf) as Hd.
  pose proof (normalize_unit f Hd) as Hn.
  pose proof (cross_normalize_pos world_up f Hf Hc) as Hp.
  destruct (basis_orthonormal world_up (normalize_vecs f) Hn Hp)
    as [(H1 & _ & _ & H4 & _) _].
  unfold IEEE.cam2world_row, cam2world_row.
  rewrite (ieee_normalize_fin f Hd), ieee_world_up, ieee_cross_fin.
  rewrite (ieee_normalize_fin _ Hp), ieee_vopp_fin, ieee_cross_fin.
  rewrite ieee_normalize_fin.
  - apply ieee_matmul_fin.
  - rewrite dot_cross_cross, Hn, H1.
    rewrite (dot_comm (normalize_vecs f)), H4. lra.
Qed.

Lemma ieee_dot4_last (a b c : R) (x : IEEE.xreal) :
  IEEE.dot4 (IEEE.mk4 (IEEE.Fin a) (IEEE.Fin b) (IEEE.Fin c) x)
            (IEEE.mk4 (IEEE.Fin 0) (IEEE.Fin 0) (IEEE.Fin 0) (IEEE.Fin 1))
  = x.
Proof.
  unfold IEEE.dot4; simpl. destruct x as [r| | |]; simpl.
  - f_equal; ring.
  - unfold IEEE.inf_times.
    destruct (Req_dec_T 1 0); [lra|]. destruct (Rlt_dec 0 1); [|lra].
    reflexivity.
  - unfold IEEE.inf_times.
    destruct (Req_dec_T 1 0); [lra|]. destruct (Rlt_dec 0 1); [|lra].
    reflexivity.
  - reflexivity.
Qed.

(** The translation column is the origin whatever the forward vector and
    whatever the origin, finite or not. *)
Lemma ieee_cam2world_row_translation (f o : IEEE.vec3) :
  IEEE.translation (IEEE.cam2world_row f o) = o.
Proof.
  unfold IEEE.cam2world_row.
  generalize (IEEE.normalize_vecs f). intros n.
  generalize (IEEE.vopp (IEEE.normalize_vecs (IEEE.cross IEEE.world_up n))).
  intros a.
  generalize (IEEE.normalize_vecs (IEEE.cross n a)). intros b.
  change (IEEE.mk3
            (IEEE.dot4 (IEEE.mk4 (IEEE.Fin 1) (IEEE.Fin 0) (IEEE.Fin 0)
                                 (IEEE.vx o))
               (IEEE.mk4 (IEEE.Fin 0) (IEEE.Fin 0) (IEEE.Fin 0) (IEEE.Fin 1)))
            (IEEE.dot4 (IEEE.mk4 (IEEE.Fin 0) (IEEE.Fin 1) (IEEE.Fin 0)
                                 (IEEE.vy o))
               (IEEE.mk4 (IEEE.Fin 0) (IEEE.Fin 0) (IEEE.Fin 0) (IEEE.Fin 1)))
            (IEEE.dot4 (IEEE.mk4 (IEEE.Fin 0) (IEEE.Fin 0) (IEEE.Fin 1)
                                 (IEEE.vz o))
               (IEEE.mk4 (IEEE.Fin 0) (IEEE.Fin 0) (IEEE.Fin 0) (IEEE.Fin 1)))
          = o).
  rewrite !ieee_dot4_last. now destruct o.
Qed.

Lemma ieee_create_cam2world_matrix_one (f o : IEEE.vec3) :
  IEEE.create_cam2world_matrix [f] [o] = Some [IEEE.cam2world_row f o].
Proof. reflexivity. Qed.

(** A forward vector along the world-up vector: the cross product with
    the up vector is the zero vector. *)
Lemma cross_up_vertical (y : R) :
  cross world_up (normalize_vecs (mk3 0 y 0)) = vzero.
Proof.
  unfold cross, world_up, normalize_vecs, vzero, Rdiv; simpl.
  f_equal; ring.
Qed.

Ltac ieee_compute :=
  cbv beta iota zeta delta
    [IEEE.cam2world_row IEEE.matmul IEEE.row_times IEEE.apply4 IEEE.dot4
     IEEE.col0 IEEE.col1 IEEE.col2 IEEE.col3
     IEEE.set_block33 IEEE.set_col3 IEEE.stack_last IEEE.eye4
     IEEE.translation IEEE.rot_col2
     IEEE.vopp IEEE.cross IEEE.norm IEEE.normalize_vecs
     IEEE.xopp IEEE.xadd IEEE.xsub IEEE.xmul IEEE.xdiv IEEE.xsqrt
     IEEE.vx IEEE.vy IEEE.vz IEEE.c0 IEEE.c1 IEEE.c2 IEEE.c3
     IEEE.r0 IEEE.r1 IEEE.r2 IEEE.r3 IEEE.q0 IEEE.q1 IEEE.q2
     fin3 fin4].

(** One row for a forward vector (0, y, 0), y <> 0: the first two
    rotation columns are NaN, and the product with the translation
    matrix spreads them to the bottom row. *)
Lemma ieee_cam2world_row_vertical (y : R) (o : vec3) :
  y <> 0 ->
  IEEE.r3 (IEEE.cam2world_row (fin3 (mk3 0 y 0)) (fin3 o))
  = IEEE.mk4 IEEE.NaN IEEE.NaN (IEEE.Fin 0) (IEEE.Fin 1) /\
  IEEE.apply4 (IEEE.cam2world_row (fin3 (mk3 0 y 0)) (fin3 o))
              (IEEE.mk4 (IEEE.Fin 0) (IEEE.Fin 0) (IEEE.Fin 1) (IEEE.Fin 0))
  = IEEE.mk4 IEEE.NaN IEEE.NaN IEEE.NaN IEEE.NaN /\
  IEEE.rot_col2 (IEEE.cam2world_row (fin3 (mk3 0 y 0)) (fin3 o))
  = fin3 (normalize_vecs (mk3 0 y 0)).
Proof.
  intros Hy.
  assert (Hd : 0 < dot (mk3 0 y 0) (mk3 0 y 0))
    by (unfold dot; simpl; nra).
  unfold IEEE.cam2world_row.
  rewrite (ieee_normalize_fin _ Hd), ieee_world_up, ieee_cross_fin.
  rewrite cross_up_vertical, ieee_normalize_zero.
  generalize (normalize_vecs (mk3 0 y 0)). intros n.
  destruct n as [nx ny nz]. destruct o as [ox oy oz].
  ieee_compute.
  split; [|split].
  - f_equal; f_equal; ring.
  - reflexivity.
  - f_equal; f_equal; simpl; ring.
Qed.

(** C1, as the specification states it, fails on the accepted batch with
    the single forward vector (0,1,0) and origin (1,2,3): the floats of
    the bottom row are NaN, NaN, 0, 1, not 0, 0, 0, 1, and the matrix
    maps (0,0,1,0) to four NaN. *)
Lemma create_cam2world_matrix_vertical_forward :
  exists m,
    IEEE.create_cam2world_matrix [fin3 (mk3 0 1 0)] [fin3 (mk3 1 2 3)]
    = Some [m] /\
    IEEE.r3 m = IEEE.mk4 IEEE.NaN IEEE.NaN (IEEE.Fin 0) (IEEE.Fin 1) /\
    IEEE.r3 m <> fin4 (mk4 0 0 0 1) /\
    IEEE.apply4 m (fin4 (mk4 0 0 1 0))
    = IEEE.mk4 IEEE.NaN IEEE.NaN IEEE.NaN IEEE.NaN /\
    IEEE.translation m = fin3 (mk3 1 2 3).
Proof.
  exists (IEEE.cam2world_row (fin3 (mk3 0 1 0)) (fin3 (mk3 1 2 3))).
  assert (H1 : (1 : R) <> 0) by lra.
  destruct (ieee_cam2world_row_vertical 1 (mk3 1 2 3) H1) as (Hr & Ha & _).
  split; [apply ieee_create_cam2world_matrix_one|].
  split; [exact Hr|].
  split; [rewrite Hr; unfold fin4; simpl; discriminate|].
  split; [exact Ha|].
  apply ieee_cam2world_row_translation.
Qed.
